(** * Avito ads pipeline: shallow embedding and verified properties

    The development follows the three stages of the repository:
    - [Enricher]  (src/enricher.py): the batched client with its retry loop,
    - [Analyzer]  (src/analyzer.py): the two coverage operations,
    - [Parser]    (src/parser.py):   the extraction of ads from a DOM tree.

    Python dictionaries are finite maps ([gmap]) with string keys; raised
    exceptions are an explicit [result]; the mutable statistics object, the
    requests sent through the HTTP client and the pauses are threaded through
    as an explicit [World]. *)

From stdpp Require Import gmap strings list fin_maps sorting.
From Stdlib Require Import QArith Qround.
Close Scope Q_scope.

(** ** Exceptions and results *)

Inductive exn :=
| AuthError          (* src/enricher.py: class AuthError(APIError) *)
| IndexError         (* list index out of range *)
| KeyError           (* missing dictionary key / missing column *)
| ValueError         (* range() arg 3 must not be zero *)
| ZeroDivisionError.

Inductive result (A : Type) :=
| Ok (a : A)
| Raise (e : exn).
Arguments Ok {A} a.
Arguments Raise {A} e.

Definition is_ok {A} (r : result A) : bool :=
  match r with Ok _ => true | Raise _ => false end.

(** Values stored in a record: JSON scalars. *)
Inductive value :=
| VStr (s : string)
| VNum (z : Z)
| VNull.

Abbreviation dict := (gmap string value).

Module Enricher.

(** HTTP status codes (enricher.py, lines 46-50). *)
Definition HTTP_OK : Z := 200.
Definition HTTP_UNAUTHORIZED : Z := 401.
Definition HTTP_RATE_LIMIT : Z := 429.
Definition HTTP_SERVER_ERROR : Z := 500.

(** The [EnrichmentStats] dataclass. *)
Record EnrichmentStats := mkStats {
  total_sent : nat;
  total_success : nat;
  total_failed : nat;
  rate_limit_hits : nat;
  timeout_errors : nat;
  other_errors : nat;
  retry_count : nat
}.

Definition new_stats : EnrichmentStats := mkStats 0 0 0 0 0 0 0.

Definition add_total_sent (n : nat) (s : EnrichmentStats) :=
  mkStats (total_sent s + n) (total_success s) (total_failed s)
          (rate_limit_hits s) (timeout_errors s) (other_errors s) (retry_count s).
Definition add_total_success (n : nat) (s : EnrichmentStats) :=
  mkStats (total_sent s) (total_success s + n) (total_failed s)
          (rate_limit_hits s) (timeout_errors s) (other_errors s) (retry_count s).
Definition add_total_failed (n : nat) (s : EnrichmentStats) :=
  mkStats (total_sent s) (total_success s) (total_failed s + n)
          (rate_limit_hits s) (timeout_errors s) (other_errors s) (retry_count s).
Definition add_rate_limit_hits (n : nat) (s : EnrichmentStats) :=
  mkStats (total_sent s) (total_success s) (total_failed s)
          (rate_limit_hits s + n) (timeout_errors s) (other_errors s) (retry_count s).
Definition add_timeout_errors (n : nat) (s : EnrichmentStats) :=
  mkStats (total_sent s) (total_success s) (total_failed s)
          (rate_limit_hits s) (timeout_errors s + n) (other_errors s) (retry_count s).
Definition add_other_errors (n : nat) (s : EnrichmentStats) :=
  mkStats (total_sent s) (total_success s) (total_failed s)
          (rate_limit_hits s) (timeout_errors s) (other_errors s + n) (retry_count s).
Definition add_retry_count (n : nat) (s : EnrichmentStats) :=
  mkStats (total_sent s) (total_success s) (total_failed s)
          (rate_limit_hits s) (timeout_errors s) (other_errors s) (retry_count s + n).

(** What [response.json()] followed by [data.get("processed_data", [])] and
    [len(processed)] can give: either the block raises (the body is not JSON,
    or not an object, or the field has no length) or the body is an object
    whose "processed_data" field is absent or a list of objects, the
    [list[dict[str, Any]]] that [enrich_batch] declares to return. *)
Inductive body :=
| BadBody
| JsonObject (processed_data : option (list dict)).

(** What [await client.post(...)] can give. *)
Inductive outcome :=
| Response (status_code : Z) (b : body)
| TimeoutException        (* httpx.TimeoutException *)
| TransportError.         (* any other exception *)

(** The remote service: the answer to the [i]-th request of the run, which
    may depend on the titles it carries. *)
Definition service := nat → list value → outcome.

(** The state the coroutines act upon: the statistics object, the payloads
    posted so far (oldest first) and the pauses taken, in seconds. *)
Record World := mkWorld {
  stats : EnrichmentStats;
  requests : list (list value);
  sleeps : list Q
}.

Definition init_world : World := mkWorld new_stats [] [].

Definition upd_stats (f : EnrichmentStats → EnrichmentStats) (w : World) : World :=
  mkWorld (f (stats w)) (requests w) (sleeps w).

Definition sleep (seconds : Q) (w : World) : World :=
  mkWorld (stats w) (requests w) (sleeps w ++ [seconds]).

Definition post (srv : service) (titles : list value) (w : World) : outcome * World :=
  (srv (length (requests w)) titles,
   mkWorld (stats w) (requests w ++ [titles]) (sleeps w)).

(** The body of [for attempt in range(retry)] of [enrich_batch]; the list is
    the attempts still to run.  [Ok (Some r)] is [return r], [Ok None] is the
    loop running to its end. *)
Fixpoint attempt_loop (srv : service) (titles : list value) (retry : nat)
    (attempts : list nat) (w : World) : World * result (option (list dict)) :=
  match attempts with
  | [] => (w, Ok None)
  | attempt :: rest =>
    let w := upd_stats (add_total_sent (length titles)) w in
    let '(o, w) := post srv titles w in
    match o with
    | Response status_code b =>
      if (status_code =? HTTP_OK)%Z then
        match b with
        | JsonObject processed_data =>
          let processed := default [] processed_data in
          (upd_stats (add_total_success (length processed)) w, Ok (Some processed))
        | BadBody =>
          (upd_stats (add_other_errors 1) w, Ok (Some []))
        end
      else if (status_code =? HTTP_UNAUTHORIZED)%Z then
        (upd_stats (add_other_errors (length titles)) w, Raise AuthError)
      else if (status_code =? HTTP_RATE_LIMIT)%Z then
        let w := upd_stats (add_rate_limit_hits 1) w in
        let wait_time := (2 ^ (Z.of_nat attempt + 1))%Z in
        let w := sleep (inject_Z wait_time) w in
        let w := upd_stats (add_retry_count 1) w in
        attempt_loop srv titles retry rest w
      else if (HTTP_SERVER_ERROR <=? status_code)%Z then
        let w := sleep 1%Q w in
        let w := upd_stats (add_retry_count 1) w in
        attempt_loop srv titles retry rest w
      else
        (upd_stats (add_other_errors (length titles)) w, Ok (Some []))
    | TimeoutException =>
      let w := upd_stats (add_timeout_errors (length titles)) w in
      if attempt <? retry - 1 then
        let w := sleep 1%Q w in
        let w := upd_stats (add_retry_count 1) w in
        attempt_loop srv titles retry rest w
      else
        attempt_loop srv titles retry rest w
    | TransportError =>
      (upd_stats (add_other_errors (length titles)) w, Ok (Some []))
    end
  end.

(** [enrich_batch(titles, client, stats, retry)]. *)
Definition enrich_batch (srv : service) (titles : list value) (retry : nat)
    (w : World) : World * result (list dict) :=
  match attempt_loop srv titles retry (seq 0 retry) w with
  | (w, Ok (Some processed)) => (w, Ok processed)
  | (w, Ok None) =>
    (* All retries exhausted *)
    (upd_stats (add_total_failed (length titles)) w, Ok [])
  | (w, Raise e) => (w, Raise e)
  end.

(** [range(0, stop, step)] for a positive step, unrolled with [stop] units of
    fuel (every index below [stop] costs one). *)
Fixpoint range_from (fuel i stop step : nat) : list nat :=
  match fuel with
  | 0 => []
  | S fuel' => if i <? stop then i :: range_from fuel' (i + step) stop step else []
  end.

Definition py_range (stop step : nat) : list nat := range_from stop 0 stop step.

(** [ads[i : i + batch_size]]. *)
Definition slice (ads : list dict) (i n : nat) : list dict := take n (drop i ads).

(** [[a["title"] for a in batch]]. *)
Fixpoint get_titles (batch : list dict) : result (list value) :=
  match batch with
  | [] => Ok []
  | a :: rest =>
    match a !! "title" with
    | None => Raise KeyError
    | Some t =>
      match get_titles rest with
      | Ok ts => Ok (t :: ts)
      | Raise e => Raise e
      end
    end
  end.

(** [{**ad, **enriched_item}]: the keys of [enriched_item] win. *)
Definition merge_dicts (ad enriched_item : dict) : dict := enriched_item ∪ ad.

(** [enumerate(enriched)]. *)
Definition enumerate {A} (l : list A) : list (nat * A) := zip (seq 0 (length l)) l.

(** The merge loop of [enrich_all_ads] (lines 219-221). *)
Fixpoint merge_loop (batch : list dict) (items : list (nat * dict))
    (results : list dict) : result (list dict) :=
  match items with
  | [] => Ok results
  | (j, enriched_item) :: rest =>
    match batch !! j with
    | None => Raise IndexError
    | Some ad => merge_loop batch rest (results ++ [merge_dicts ad enriched_item])
    end
  end.

(** The [for i in range(0, len(ads), batch_size)] loop; the list is the
    indices still to visit. *)
Fixpoint batch_loop (srv : service) (ads : list dict) (batch_size : nat)
    (rate_limit_delay : Q) (indices : list nat) (w : World) (results : list dict)
    : World * result (list dict) :=
  match indices with
  | [] => (w, Ok results)
  | i :: rest =>
    let batch := slice ads i batch_size in
    match get_titles batch with
    | Raise e => (w, Raise e)
    | Ok titles =>
      match enrich_batch srv titles 3 w with
      | (w, Raise e) => (w, Raise e)
      | (w, Ok enriched) =>
        match merge_loop batch (enumerate enriched) results with
        | Raise e => (w, Raise e)
        | Ok results =>
          let w := if i + batch_size <? length ads
                   then sleep rate_limit_delay w else w in
          batch_loop srv ads batch_size rate_limit_delay rest w results
        end
      end
    end
  end.

(** [enrich_all_ads(ads, batch_size, rate_limit_delay)].  A zero step makes
    [range] raise; a negative one gives an empty range. *)
Definition enrich_all_ads (srv : service) (ads : list dict) (batch_size : Z)
    (rate_limit_delay : Q) : World * result (list dict * EnrichmentStats) :=
  let w := init_world in
  if (batch_size =? 0)%Z then (w, Raise ValueError)
  else
    let indices :=
      if (batch_size <? 0)%Z then []
      else py_range (length ads) (Z.to_nat batch_size) in
    match batch_loop srv ads (Z.to_nat batch_size) rate_limit_delay indices w [] with
    | (w, Ok results) => (w, Ok (results, stats w))
    | (w, Raise e) => (w, Raise e)
    end.

(** [EnrichmentStats.success_rate()]; the exact ratio stands for the float. *)
Definition success_rate (s : EnrichmentStats) : Q :=
  if total_sent s =? 0 then 0%Q
  else (inject_Z (Z.of_nat (total_success s))
        / inject_Z (Z.of_nat (total_sent s)) * 100)%Q.

(** *** Vocabulary for the properties of the client *)

(** The answer is an HTTP 429. *)
Definition is_rate_limited (o : outcome) : bool :=
  match o with
  | Response status_code _ => (status_code =? HTTP_RATE_LIMIT)%Z
  | _ => false
  end.

(** The answer makes the client give the batch up at once: an unparseable
    HTTP 200 body, a status that is none of 200, 401, 429 and >= 500, or a
    transport fault. *)
Definition abandons (o : outcome) : bool :=
  match o with
  | Response status_code b =>
    if (status_code =? HTTP_OK)%Z then
      match b with BadBody => true | JsonObject _ => false end
    else
      negb (status_code =? HTTP_UNAUTHORIZED)%Z
      && negb (status_code =? HTTP_RATE_LIMIT)%Z
      && negb (HTTP_SERVER_ERROR <=? status_code)%Z
  | TimeoutException => false
  | TransportError => true
  end.

(** The pause before the retry that follows the rate-limited attempt
    [attempt]. *)
Definition backoff (attempt : nat) : Q := inject_Z (2 ^ (Z.of_nat attempt + 1)).


(** The answer is an HTTP 401. *)
Definition unauthorized (o : outcome) : bool :=
  match o with
  | Response status_code _ => (status_code =? HTTP_UNAUTHORIZED)%Z
  | _ => false
  end.

(** The answer is one the retry policy retries: HTTP 429, HTTP >= 500 or a
    request timeout. *)
Definition retryable (o : outcome) : bool :=
  match o with
  | Response status_code _ =>
    (status_code =? HTTP_RATE_LIMIT)%Z || (HTTP_SERVER_ERROR <=? status_code)%Z
  | TimeoutException => true
  | TransportError => false
  end.

(** The answer is an HTTP 200 whose body parses and lists at most one
    classification object per submitted title. *)
Definition success (titles : list value) (o : outcome) : bool :=
  match o with
  | Response status_code (JsonObject processed_data) =>
    (status_code =? HTTP_OK)%Z
    && (length (default [] processed_data) <=? length titles)
  | _ => false
  end.

(** The answer is a failure the client absorbs: rate limit, server error,
    unexpected status, unparseable body, timeout or transport fault. *)
Definition absorbed_failure (o : outcome) : bool :=
  match o with
  | Response status_code b =>
    if (status_code =? HTTP_OK)%Z then
      match b with BadBody => true | JsonObject _ => false end
    else negb (status_code =? HTTP_UNAUTHORIZED)%Z
  | TimeoutException => true
  | TransportError => true
  end.

Definition has_title (ad : dict) : Prop := is_Some (ad !! "title").

(** No payload of the log was answered with a 401. *)
Definition no_auth_failure (srv : service) (log : list (list value)) : Prop :=
  ∀ i titles, log !! i = Some titles → unauthorized (srv i titles) = false.

(** The answer is a request timeout. *)
Definition is_timeout (o : outcome) : bool :=
  match o with TimeoutException => true | _ => false end.

(** The answer is an HTTP 200 whose body does not parse. *)
Definition is_bad_body (o : outcome) : bool :=
  match o with
  | Response status_code BadBody => (status_code =? HTTP_OK)%Z
  | _ => false
  end.

(** The answer is one of the other errors met on the status or on the
    transport: an HTTP 401, an unexpected status, a transport fault. *)
Definition is_status_error (o : outcome) : bool :=
  match o with
  | Response status_code _ =>
    negb (status_code =? HTTP_OK)%Z
    && ((status_code =? HTTP_UNAUTHORIZED)%Z
        || negb ((status_code =? HTTP_RATE_LIMIT)%Z
                 || (HTTP_SERVER_ERROR <=? status_code)%Z))
  | TimeoutException => false
  | TransportError => true
  end.

(** How many of the [n] requests numbered from [start], all carrying
    [titles], were answered with an outcome of kind [p]. *)
Definition occurrences (p : outcome → bool) (srv : service) (titles : list value)
    (start n : nat) : nat :=
  length (filter (λ k, p (srv k titles) = true) (seq start n)).

(** What holds of the log once a computation has ended with [r]: an
    authentication error means the last payload sent, and no other, was
    answered with a 401; any other ending means none was. *)
Definition auth_post {A} (srv : service) (w : World) (r : result A) : Prop :=
  match r with
  | Raise AuthError =>
    ∃ log titles,
      requests w = log ++ [titles]
      ∧ unauthorized (srv (length log) titles) = true
      ∧ no_auth_failure srv log
  | _ => no_auth_failure srv (requests w)
  end.

(** The [k]-th batch of titles sent when the batch size is [b]. *)
Definition chunk (b : nat) (all_titles : list value) (k : nat) : list value :=
  take b (drop (k * b) all_titles).

End Enricher.

Module Analyzer.

(** A field of a table as [pd.read_csv] gives it: [None] is NaN (an empty
    field), [Some s] a value whose [astype(str)] form is [s]. *)
Definition cell := option string.

(** A row of a table read from disk, restricted to the columns the analyzer
    reads.  The three group columns are required by both operations; the
    columns "marka" and "model" may be absent from a file, which the table
    records once for all its rows. *)
Record Row := mkRow {
  group0 : cell;
  group1 : cell;
  group2 : cell;
  marka : cell;
  model : cell
}.

Record Table := mkTable {
  has_marka : bool;
  has_model : bool;
  rows : list Row
}.

(** The taxonomy key: the group columns after [.fillna("").astype(str)]. *)
Abbreviation key3 := (string * string * string)%type.

Definition fillna_str (c : cell) : string := default "" c.

Definition key_of (r : Row) : key3 :=
  (fillna_str (group0 r), fillna_str (group1 r), fillna_str (group2 r)).

(** [df[group_cols]] once the group columns are normalised. *)
Definition group_cols_of (df : Table) : list key3 := key_of <$> rows df.

(** [DataFrame.drop_duplicates()]: the first occurrence of a row is kept. *)
Fixpoint drop_duplicates_from {A} `{EqDecision A} (seen l : list A) : list A :=
  match l with
  | [] => []
  | x :: l' =>
    if decide (x ∈ seen) then drop_duplicates_from seen l'
    else x :: drop_duplicates_from (x :: seen) l'
  end.

Definition drop_duplicates {A} `{EqDecision A} (l : list A) : list A :=
  drop_duplicates_from [] l.

(** The [_merge] column of a merge with [indicator=True]. *)
Inductive indicator := left_only | both.

Global Instance indicator_eq_dec : EqDecision indicator.
Proof. solve_decision. Defined.

(** [left.merge(right, on=group_cols, how="left", indicator=True)] when both
    frames consist of the group columns only: one row per matching pair, and
    one row marked [left_only] for a left row without a match. *)
Definition merge_left_indicator (left right : list key3) : list (key3 * indicator) :=
  flat_map (λ k,
    match filter (λ k', k' = k) right with
    | [] => [(k, left_only)]
    | ms => (λ _, (k, both)) <$> ms
    end) left.

(** [left.merge(right, on=group_cols, how="inner")] on such frames. *)
Definition merge_inner (left right : list key3) : list key3 :=
  flat_map (λ k, (λ _, k) <$> filter (λ k', k' = k) right) left.

(** [missing.merge(output_df, on=group_cols, how="left")]: every row of the
    catalog with the key, or NaN in the catalog's columns without one. *)
Definition merge_left_catalog (missing : list (key3 * indicator)) (output_df : list Row)
    : list (key3 * cell * cell) :=
  flat_map (λ m,
    match filter (λ r, key_of r = m.1) output_df with
    | [] => [(m.1, None, None)]
    | rs => (λ r, (m.1, marka r, model r)) <$> rs
    end) missing.

(** A row of [missing_with_info[available_cols]]: a column that is not
    available has no field at all. *)
Definition select_available (hm hd : bool) (r : key3 * cell * cell)
    : key3 * option cell * option cell :=
  (r.1.1, if hm then Some r.1.2 else None, if hd then Some r.2 else None).

(** A row of the result, columns group0, group1, group2, marka, model, reason. *)
Record MissingRow := mkMissing {
  m_key : key3;
  m_marka : cell;
  m_model : cell;
  reason : string
}.

(** A frame of result rows with its column index. *)
Record Frame := mkFrame {
  columns : list string;
  frows : list MissingRow
}.

Definition group_cols : list string := ["group0"; "group1"; "group2"].

(** [series.value_counts()] before its own sort: each distinct key with the
    number of rows that carry it. *)
Definition count_rows (k : key3) (keys : list key3) : nat :=
  length (filter (λ k', k' = k) keys).

(** Sorting by a count, largest first.  Equal counts keep their order here;
    pandas leaves their order to its sorting algorithm, and nothing below
    depends on it. *)
Fixpoint insert_desc {A} (f : A → nat) (x : A) (l : list A) : list A :=
  match l with
  | [] => [x]
  | y :: l' => if f x <? f y then y :: insert_desc f x l' else x :: y :: l'
  end.

Definition sort_desc {A} (f : A → nat) (l : list A) : list A :=
  foldr (insert_desc f) [] l.

Definition value_counts (keys : list key3) : list (key3 * nat) :=
  sort_desc snd ((λ k, (k, count_rows k keys)) <$> drop_duplicates keys).

(** [result_df.merge(freq, on=group_cols, how="left")]; a key that [freq]
    lacks gets NaN, which [sort_values] puts last (counted as 0 here; the
    keys of the result all come from the catalog, so this does not occur). *)
Definition merge_left_freq (result_df : list MissingRow) (freq : list (key3 * nat))
    : list (MissingRow * nat) :=
  flat_map (λ r,
    match filter (λ f, f.1 = m_key r) freq with
    | [] => [(r, 0)]
    | fs => (λ f, (r, f.2)) <$> fs
    end) result_df.

(** [find_missing_coverage(enriched_path, output_path, output_missing_path)]:
    the two tables are what [pd.read_csv] returned for the first two paths;
    [fs] holds the files written with [to_csv]. *)
Definition find_missing_coverage (enriched_df output_df : Table)
    (output_missing_path : string) (fs : gmap string Frame)
    : Frame * gmap string Frame :=
  let existing_combinations := drop_duplicates (group_cols_of enriched_df) in
  let target_combinations := drop_duplicates (group_cols_of output_df) in
  let merged := merge_left_indicator target_combinations existing_combinations in
  let missing := filter (λ m, m.2 = left_only) merged in
  if length missing =? 0 then
    (mkFrame (group_cols ++ ["reason"]) [], fs)
  else
    let missing_with_info := merge_left_catalog missing (rows output_df) in
    let hm := has_marka output_df in
    let hd := has_model output_df in
    let result_df := select_available hm hd <$> missing_with_info in
    let result_df := drop_duplicates result_df in
    (* missing columns are added with empty values; the reason column *)
    let result_df :=
      (λ r, mkMissing r.1.1 (default (Some "") r.1.2) (default (Some "") r.2)
                      "отсутствует") <$> result_df in
    let freq := value_counts (group_cols_of output_df) in
    let result_df := merge_left_freq result_df freq in
    let result_df := sort_desc snd result_df in
    let result_df := fst <$> result_df in
    let result := mkFrame (group_cols ++ ["marka"; "model"; "reason"]) result_df in
    (result, <[output_missing_path := result]> fs).

(** The report dictionary of [generate_coverage_report]. *)
Record Report := mkReport {
  total_combinations : nat;
  covered_combinations : nat;
  missing_combinations : Z;
  coverage_percentage : Q
}.

(** [a / b] on integers: true division, which raises on a zero divisor.
    Python computes it in floating point; the model keeps the exact ratio. *)
Definition py_truediv (a b : nat) : result Q :=
  if b =? 0 then Raise ZeroDivisionError
  else Ok (inject_Z (Z.of_nat a) / inject_Z (Z.of_nat b))%Q.

(** [round(x, 2)] on the exact ratio: to the nearest hundredth, ties to the
    even one. *)
Definition round_half_even (q : Q) : Z :=
  let f := Qfloor q in
  let r := (q - inject_Z f)%Q in
  match (r ?= 1 # 2)%Q with
  | Lt => f
  | Gt => (f + 1)%Z
  | Eq => if Z.even f then f else (f + 1)%Z
  end.

Definition round2 (q : Q) : Q := Qred (round_half_even (q * 100) # 100)%Q.

(** [generate_coverage_report(enriched_path, output_path)]. *)
Definition generate_coverage_report (enriched_df output_df : Table) : result Report :=
  let enriched_combos := drop_duplicates (group_cols_of enriched_df) in
  let output_combos := drop_duplicates (group_cols_of output_df) in
  let total_combos := length output_combos in
  let merged := merge_inner output_combos enriched_combos in
  let covered_combos := length merged in
  let missing_combos := (Z.of_nat total_combos - Z.of_nat covered_combos)%Z in
  match
    (if 0 <? total_combos then
       match py_truediv covered_combos total_combos with
       | Ok q => Ok (q * 100)%Q
       | Raise e => Raise e
       end
     else Ok 0%Q)
  with
  | Raise e => Raise e
  | Ok coverage_pct =>
    Ok (mkReport total_combos covered_combos missing_combos (round2 coverage_pct))
  end.

(** *** Vocabulary for the properties of the analyzer *)

(** The distinct taxonomy keys of a table, as a set. *)
Definition keys (df : Table) : gset key3 := list_to_set (group_cols_of df).

(** The available marka and model fields of a catalog row. *)
Definition info_of (hm hd : bool) (r : Row) : option cell * option cell :=
  (if hm then Some (marka r) else None, if hd then Some (model r) else None).

(** Every catalog key that no enriched record carries comes with a single
    combination of the available marka and model fields. *)
Definition single_info (enriched_df output_df : Table) : Prop :=
  ∀ r1 r2,
    r1 ∈ rows output_df → r2 ∈ rows output_df →
    key_of r1 = key_of r2 →
    key_of r1 ∉ keys enriched_df →
    info_of (has_marka output_df) (has_model output_df) r1
    = info_of (has_marka output_df) (has_model output_df) r2.

(** The distinct rows of the catalog merge of [find_missing_coverage],
    restricted to the available columns. *)
Definition distinct_rows (enriched_df output_df : Table)
    : list (key3 * option cell * option cell) :=
  let existing := drop_duplicates (group_cols_of enriched_df) in
  let target := drop_duplicates (group_cols_of output_df) in
  let missing := filter (λ m, m.2 = left_only) (merge_left_indicator target existing) in
  drop_duplicates
    (select_available (has_marka output_df) (has_model output_df)
       <$> merge_left_catalog missing (rows output_df)).

(** The result row made of such a row: empty marka and model for the
    columns that are not available, and the reason. *)
Definition missing_row (r : key3 * option cell * option cell) : MissingRow :=
  mkMissing r.1.1 (default (Some "") r.1.2) (default (Some "") r.2) "отсутствует".

(** How often the key of a result row occurs in the catalog. *)
Definition catalog_frequency (output_df : Table) (r : MissingRow) : nat :=
  count_rows (m_key r) (group_cols_of output_df).

(** The coverage report as the specification words it, over the sets of
    distinct keys: the number of catalog keys, the number of them present
    among the enriched keys, the difference, and the percentage covered,
    defined as 0 when there is no catalog key. *)
Definition coverage_spec (catalog enriched : gset key3) : Report :=
  let total := size catalog in
  let covered := size (catalog ∩ enriched) in
  mkReport total covered (Z.of_nat total - Z.of_nat covered)
    (if decide (total = 0) then 0%Q
     else round2 (inject_Z (Z.of_nat covered) / inject_Z (Z.of_nat total) * 100)%Q).

End Analyzer.

Module Parser.

(** The document as BeautifulSoup holds it after parsing: a tree of tags and
    text strings. *)
#[local] Unset Elimination Schemes.
Inductive node :=
| Text (s : string)
| Tag (name : string) (attrs : list (string * string)) (children : list node).
#[local] Set Elimination Schemes.

(** The [Ad] dataclass. *)
Record Ad := mkAd {
  ad_id : string;
  title : string;
  url : string;
  region : string;
  price : string
}.

(** [tag.get(key)]: the first attribute of that name. *)
Fixpoint get_attr (key : string) (attrs : list (string * string)) : option string :=
  match attrs with
  | [] => None
  | (k, v) :: rest => if decide (k = key) then Some v else get_attr key rest
  end.

Definition get (n : node) (key : string) : option string :=
  match n with
  | Text _ => None
  | Tag _ attrs _ => get_attr key attrs
  end.

Definition tag_name (n : node) : option string :=
  match n with
  | Text _ => None
  | Tag name _ _ => Some name
  end.

(** All nodes below a node, in document order. *)
Fixpoint descendants (n : node) : list node :=
  match n with
  | Text _ => []
  | Tag _ _ children =>
    (fix go (cs : list node) : list node :=
       match cs with
       | [] => []
       | c :: cs' => c :: descendants c ++ go cs'
       end) children
  end.

Definition is_tag (n : node) : bool :=
  match n with Text _ => false | Tag _ _ _ => true end.

(** [find_all(attrs={key: True})]: the tags below that carry the attribute. *)
Definition find_all_with_attr (n : node) (key : string) : list node :=
  filter (λ d, is_Some (get d key)) (descendants n).

(** [find(attrs={key: v})]: the first tag below whose attribute is [v]. *)
Definition find_by_attr (n : node) (key v : string) : option node :=
  head (filter (λ d, get d key = Some v) (descendants n)).

(** [find(name)]: the first tag below with that name. *)
Definition find_by_name (n : node) (name : string) : option node :=
  head (filter (λ d, tag_name d = Some name) (descendants n)).

(** ASCII white space as [str.strip()] removes it. *)
Definition is_space (a : Ascii.ascii) : bool :=
  let n := Ascii.nat_of_ascii a in
  (9 <=? n) && (n <=? 13) || (28 <=? n) && (n <=? 32).

Fixpoint lstrip (s : string) : string :=
  match s with
  | EmptyString => EmptyString
  | String a s' => if is_space a then lstrip s' else s
  end.

Definition strip (s : string) : string :=
  String.rev (lstrip (String.rev (lstrip s))).

(** The text strings of a node, in document order. *)
Definition strings_of (n : node) : list string :=
  match n with
  | Text s => [s]
  | Tag _ _ _ =>
    omap (λ d, match d with Text s => Some s | Tag _ _ _ => None end) (descendants n)
  end.

(** [get_text(strip=True)]: the stripped strings that are not empty, joined. *)
Definition get_text (n : node) : string :=
  foldr String.app "" (filter (λ s, s ≠ "") (strip <$> strings_of n)).

(** One turn of the loop over the items of [parse_html_file]. *)
Definition parse_item (ads : list Ad) (item : node) : list Ad :=
  let ad_id := default "" (get item "data-item-id") in
  if decide (ad_id = "") then ads
  else
    let title_elem := find_by_attr item "data-marker" "item-title" in
    let title := from_option get_text "" title_elem in
    let url :=
      match title_elem with
      | Some e =>
        if decide (tag_name e = Some "a") then default "" (get e "href")
        else
          match find_by_name e "a" with
          | Some link_elem => default "" (get link_elem "href")
          | None => ""
          end
      | None => ""
      end in
    let location_elem := find_by_attr item "data-marker" "item-location" in
    let region := from_option get_text "" location_elem in
    let price_elem := find_by_attr item "data-marker" "item-price" in
    let price := from_option get_text "" price_elem in
    if decide (title = "") then ads
    else ads ++ [mkAd ad_id title url region price].

(** [parse_html_file] on the parsed document. *)
Definition parse_html_file (soup : node) : list Ad :=
  foldl parse_item [] (find_all_with_attr soup "data-item-id").

(** What [Path(file_path).read_text(encoding="utf-8")] and the parse give
    for a path: the parsed document; an [OSError] (a missing file, a
    directory, a permission fault); or a [UnicodeDecodeError], for a file
    that is not valid UTF-8. *)
Inductive file :=
| Document (soup : node)
| Unreadable
| Undecodable.

(** The loop of [parse_html_files] over the paths still to visit.  Only
    [OSError] (and its subclass [FileNotFoundError]) is caught and skipped;
    a [UnicodeDecodeError], which is a [ValueError], leaves the function. *)
Fixpoint files_loop (all_ads : list Ad) (file_paths : list file) : result (list Ad) :=
  match file_paths with
  | [] => Ok all_ads
  | Document soup :: rest => files_loop (all_ads ++ parse_html_file soup) rest
  | Unreadable :: rest => files_loop all_ads rest
  | Undecodable :: _ => Raise ValueError
  end.

(** [parse_html_files]. *)
Definition parse_html_files (file_paths : list file) : result (list Ad) :=
  files_loop [] file_paths.

(** [Ad.to_dict()]. *)
Definition to_dict (ad : Ad) : dict :=
  {[ "ad_id" := VStr (ad_id ad);
     "title" := VStr (title ad);
     "url" := VStr (url ad);
     "region" := VStr (region ad);
     "price" := VStr (price ad) ]}.

(** *** Vocabulary for the properties of the extractor *)

(** The string does not begin with white space. *)
Definition starts_clean (s : string) : Prop :=
  match s with
  | EmptyString => True
  | String a _ => is_space a = false
  end.

(** The string neither begins nor ends with white space. *)
Definition trimmed (s : string) : Prop :=
  starts_clean s ∧ starts_clean (String.rev s).

(** The list of characters does not begin with white space. *)
Definition clean_head (l : list Ascii.ascii) : Prop :=
  match l with
  | [] => True
  | a :: _ => is_space a = false
  end.

(** The documents of a list of paths that could be read. *)
Definition readable (file_paths : list file) : list node :=
  omap (λ f, match f with Document soup => Some soup | _ => None end) file_paths.

(** The file of the path, if there is one, is valid UTF-8. *)
Definition decodable (f : file) : bool :=
  match f with Undecodable => false | _ => true end.


(** The identifier the loop reads from an element, "" when absent. *)
Definition identifier (item : node) : string :=
  default "" (get item "data-item-id").

(** The title text the loop resolves for an element, "" without a title
    element. *)
Definition resolved_title (item : node) : string :=
  from_option get_text "" (find_by_attr item "data-marker" "item-title").

(** The element has a non-empty identifier and a non-empty title. *)
Definition listing (item : node) : Prop :=
  identifier item ≠ "" ∧ resolved_title item ≠ "".

Global Instance listing_dec item : Decision (listing item).
Proof. unfold listing. apply _. Defined.

End Parser.

Module Main.
Import Analyzer.

(** [MISSING_COVERAGE_CSV = DATA_DIR / "missing_coverage.csv"]. *)
Definition MISSING_COVERAGE_CSV : string := "data/missing_coverage.csv".

(** [step3_analyze_coverage]: the two tables are what the analyzer reads
    from [ADS_ENRICHED_CSV] and [OUTPUT_CSV]; [fs] holds the files written.
    The frame is saved once more by the caller, then the report is
    generated (and logged). *)
Definition step3_analyze_coverage (enriched_df output_df : Table)
    (fs : gmap string Frame) : gmap string Frame * result Frame :=
  let '(missing_df, fs) :=
    find_missing_coverage enriched_df output_df MISSING_COVERAGE_CSV fs in
  let fs := <[MISSING_COVERAGE_CSV := missing_df]> fs in
  match generate_coverage_report enriched_df output_df with
  | Raise e => (fs, Raise e)
  | Ok report => (fs, Ok missing_df)
  end.

End Main.

(** * Properties of the enrichment client *)

Section EnricherProperties.
Import Enricher.

(** The merge loop started at position [j]: while positions stay inside the
    batch, each item is merged onto the record at its position. *)
Lemma merge_loop_in_range (batch enriched : list dict) j results :
  j + length enriched ≤ length batch →
  merge_loop batch (zip (seq j (length enriched)) enriched) results
  = Ok (results ++ zip_with merge_dicts (drop j batch) enriched).
Proof.
  revert j results.
  induction enriched as [|e enriched IH]; intros j results Hlen; simpl in *.
  - destruct (drop j batch); by rewrite app_nil_r.
  - destruct (batch !! j) as [ad|] eqn:Hj.
    + rewrite IH by lia.
      rewrite (drop_S _ _ _ Hj). simpl. by rewrite <- app_assoc.
    + apply lookup_ge_None in Hj. lia.
Qed.

(** Once a position falls outside the batch, the lookup raises. *)
Lemma merge_loop_out_of_range (batch enriched : list dict) j results :
  j ≤ length batch →
  length batch < j + length enriched →
  merge_loop batch (zip (seq j (length enriched)) enriched) results
  = Raise IndexError.
Proof.
  revert j results.
  induction enriched as [|e enriched IH]; intros j results Hj Hlen; simpl in *.
  - lia.
  - destruct (batch !! j) as [ad|] eqn:Hlook; [|done].
    apply lookup_lt_Some in Hlook. apply IH; lia.
Qed.

(** ** C3 *)



(** ** C10 *)

(** C10: when a batch is answered with more objects than it has records, the
    merge loop indexes past the end of the batch and raises [IndexError];
    inside [enrich_all_ads] nothing catches it, so the whole loop ends with
    that exception instead of ignoring the surplus objects. *)
Theorem surplus_objects_raise (srv : service) (ads : list dict) (batch_size : nat)
    (delay : Q) (i : nat) (rest : list nat) (w w' : World) (results : list dict)
    (titles : list value) (enriched : list dict) :
  get_titles (slice ads i batch_size) = Ok titles →
  enrich_batch srv titles 3 w = (w', Ok enriched) →
  length (slice ads i batch_size) < length enriched →
  merge_loop (slice ads i batch_size) (enumerate enriched) results = Raise IndexError
  ∧ batch_loop srv ads batch_size delay (i :: rest) w results = (w', Raise IndexError).
Proof.
  intros Ht Hb Hlen.
  assert (Hm : merge_loop (slice ads i batch_size) (enumerate enriched) results
               = Raise IndexError).
  { unfold enumerate. apply merge_loop_out_of_range; simpl; lia. }
  split; [exact Hm|].
  simpl. rewrite Ht, Hb. by rewrite Hm.
Qed.

(** ** The retry loop *)

Ltac case_status :=
  repeat match goal with
  | |- context [(?a =? ?b)%Z] => destruct (Z.eqb_spec a b)
  | |- context [(?a <=? ?b)%Z] => destruct (Z.leb_spec a b)
  | H : context [(?a =? ?b)%Z] |- _ => destruct (Z.eqb_spec a b)
  | H : context [(?a <=? ?b)%Z] |- _ => destruct (Z.leb_spec a b)
  end.

Lemma attempt_loop_all_retryable srv titles retry attempts w :
  (∀ k, k < length attempts →
        retryable (srv (length (requests w) + k) titles) = true) →
  ∃ w', attempt_loop srv titles retry attempts w = (w', Ok None)
        ∧ total_failed (stats w') = total_failed (stats w)
        ∧ requests w' = requests w ++ replicate (length attempts) titles.
Proof.
  revert w. induction attempts as [|attempt rest IH]; intros w Hall.
  - exists w. simpl. by rewrite app_nil_r.
  - pose proof (Hall 0 ltac:(simpl; lia)) as H0.
    rewrite Nat.add_0_r in H0.
    assert (Hnext : ∀ w1, requests w1 = requests w ++ [titles] →
              total_failed (stats w1) = total_failed (stats w) →
              ∃ w', attempt_loop srv titles retry rest w1 = (w', Ok None)
                ∧ total_failed (stats w') = total_failed (stats w)
                ∧ requests w' = requests w ++ replicate (length (attempt :: rest)) titles).
    { intros w1 Hreq Hfail.
      destruct (IH w1) as (w' & Hrun & Hf & Hr).
      - intros k Hk. rewrite Hreq, length_app. simpl.
        replace (length (requests w) + 1 + k) with (length (requests w) + S k) by lia.
        apply Hall. simpl. lia.
      - exists w'. split; [exact Hrun|]. split; [congruence|].
        rewrite Hr, Hreq, <- app_assoc. done. }
    simpl attempt_loop. unfold post. simpl.
    destruct (srv (length (requests w)) titles) as [status b| |] eqn:Hsrv;
      simpl in H0; [| |done].
    + unfold HTTP_OK, HTTP_UNAUTHORIZED, HTTP_RATE_LIMIT, HTTP_SERVER_ERROR in *.
      case_status; try (simpl in H0; discriminate || lia);
        try (apply Hnext; done).
    + destruct (attempt <? retry - 1); apply Hnext; done.
Qed.

(** ** C2 *)

(** C2: when each of the [retry] send attempts of a batch is answered with a
    retryable failure (HTTP 429, HTTP >= 500 or a timeout), [enrich_batch]
    makes exactly [retry] requests, returns the empty list, and has increased
    [total_failed] by exactly the number of titles of the batch; merging the
    empty list adds no record to the output. *)
Theorem exhausted_retries (srv : service) (titles : list value) (retry : nat)
    (w : World) :
  (∀ k, k < retry → retryable (srv (length (requests w) + k) titles) = true) →
  ∃ w',
    enrich_batch srv titles retry w = (w', Ok [])
    ∧ total_failed (stats w') = total_failed (stats w) + length titles
    ∧ requests w' = requests w ++ replicate retry titles
    ∧ ∀ batch results, merge_loop batch (enumerate []) results = Ok results.
Proof.
  intros Hall.
  destruct (attempt_loop_all_retryable srv titles retry (seq 0 retry) w)
    as (w1 & Hrun & Hfail & Hreq).
  { intros k Hk. rewrite length_seq in Hk. by apply Hall. }
  exists (upd_stats (add_total_failed (length titles)) w1).
  unfold enrich_batch. rewrite Hrun. simpl.
  rewrite length_seq in Hreq. rewrite Hfail. done.
Qed.

Lemma exhausted_retries_witness :
  ∃ w',
    enrich_batch (λ _ _, Response 503 BadBody) [VStr "a"; VStr "b"] 3 init_world
    = (w', Ok [])
    ∧ total_failed (stats w') = 2.
Proof.
  destruct (exhausted_retries (λ _ _, Response 503 BadBody)
              [VStr "a"; VStr "b"] 3 init_world) as (w' & H1 & H2 & _).
  - intros k _. reflexivity.
  - exists w'. split; [exact H1 | exact H2].
Defined.

(** ** Authentication failures *)

Lemma no_auth_failure_snoc srv log titles :
  no_auth_failure srv log →
  unauthorized (srv (length log) titles) = false →
  no_auth_failure srv (log ++ [titles]).
Proof.
  intros Hlog Hlast i ts Hi.
  apply lookup_app_Some in Hi as [Hi|[Hge Hi]].
  - by apply Hlog.
  - apply list_lookup_singleton_Some in Hi as [Hi ->].
    replace i with (length log) by lia. done.
Qed.

Lemma attempt_loop_auth srv titles retry attempts w :
  no_auth_failure srv (requests w) →
  auth_post srv (attempt_loop srv titles retry attempts w).1
                (attempt_loop srv titles retry attempts w).2.
Proof.
  revert w. induction attempts as [|attempt rest IH]; intros w Hw.
  - done.
  - simpl attempt_loop. unfold post. simpl.
    destruct (srv (length (requests w)) titles) as [status b| |] eqn:Hsrv.
    + unfold HTTP_OK, HTTP_UNAUTHORIZED, HTTP_RATE_LIMIT, HTTP_SERVER_ERROR in *.
      assert (Hun : status ≠ 401%Z →
                no_auth_failure srv (requests w ++ [titles])).
      { intros Hne. apply no_auth_failure_snoc; [done|].
        rewrite Hsrv. simpl. unfold HTTP_UNAUTHORIZED. by apply Z.eqb_neq. }
      destruct (Z.eqb_spec status 200); [subst; destruct b; simpl; by apply Hun|].
      destruct (Z.eqb_spec status 401).
      { simpl. exists (requests w), titles. rewrite Hsrv. subst. done. }
      destruct (Z.eqb_spec status 429); [apply IH; simpl; by apply Hun|].
      destruct (Z.leb_spec 500 status); [apply IH; simpl; by apply Hun|].
      simpl. by apply Hun.
    + assert (Hun : no_auth_failure srv (requests w ++ [titles])).
      { apply no_auth_failure_snoc; [done|]. by rewrite Hsrv. }
      destruct (attempt <? retry - 1); by apply IH.
    + simpl. apply no_auth_failure_snoc; [done|]. by rewrite Hsrv.
Qed.

Lemma enrich_batch_auth srv titles retry w :
  no_auth_failure srv (requests w) →
  auth_post srv (enrich_batch srv titles retry w).1
                (enrich_batch srv titles retry w).2.
Proof.
  intros Hw. pose proof (attempt_loop_auth srv titles retry (seq 0 retry) w Hw) as H.
  unfold enrich_batch.
  destruct (attempt_loop srv titles retry (seq 0 retry) w) as [w1 [[p|]|e]]; done.
Qed.

(** [enrich_batch] raises nothing but the authentication error. *)
Lemma enrich_batch_raises_auth_only srv titles retry w e :
  (enrich_batch srv titles retry w).2 = Raise e → e = AuthError.
Proof.
  unfold enrich_batch.
  assert (H : ∀ attempts w0 e0,
            (attempt_loop srv titles retry attempts w0).2 = Raise e0 →
            e0 = AuthError).
  { induction attempts as [|attempt rest IH]; intros w0 e0; [done|].
    simpl attempt_loop. unfold post. simpl.
    destruct (srv (length (requests w0)) titles) as [status b| |].
    - repeat case_match; simpl; try done; try apply IH. congruence.
    - case_match; apply IH.
    - done. }
  specialize (H (seq 0 retry) w e).
  destruct (attempt_loop srv titles retry (seq 0 retry) w) as [w1 [[p|]|e1]];
    simpl in *; try done. intros [= <-]. by apply H.
Qed.

Lemma get_titles_raises batch e : get_titles batch = Raise e → e = KeyError.
Proof.
  induction batch as [|a rest IH]; simpl; [done|].
  destruct (a !! "title"); [|congruence].
  destruct (get_titles rest); [done|]. intros [= <-]. by apply IH.
Qed.

Lemma merge_loop_raises batch items results e :
  merge_loop batch items results = Raise e → e = IndexError.
Proof.
  revert results. induction items as [|[j item] rest IH]; intros results; simpl; [done|].
  destruct (batch !! j); [apply IH|congruence].
Qed.

Lemma batch_loop_auth srv ads b delay indices w results :
  no_auth_failure srv (requests w) →
  auth_post srv (batch_loop srv ads b delay indices w results).1
                (batch_loop srv ads b delay indices w results).2.
Proof.
  revert w results. induction indices as [|i rest IH]; intros w results Hw.
  - done.
  - simpl. destruct (get_titles (slice ads i b)) as [titles|e] eqn:Ht.
    2:{ by rewrite (get_titles_raises _ _ Ht). }
    pose proof (enrich_batch_auth srv titles 3 w Hw) as Hb.
    pose proof (enrich_batch_raises_auth_only srv titles 3 w) as Honly.
    destruct (enrich_batch srv titles 3 w) as [w1 [enriched|e]]; simpl in *.
    + destruct (merge_loop _ _ results) as [results'|e] eqn:Hm.
      2:{ by rewrite (merge_loop_raises _ _ _ _ Hm). }
      apply IH. by destruct (i + b <? length ads).
    + rewrite (Honly e eq_refl) in *. done.
Qed.

Lemma enrich_all_ads_auth srv ads batch_size delay :
  auth_post srv (enrich_all_ads srv ads batch_size delay).1
                (enrich_all_ads srv ads batch_size delay).2.
Proof.
  unfold enrich_all_ads.
  destruct (batch_size =? 0)%Z; [by intros i ts Hi|].
  pose proof (batch_loop_auth srv ads (Z.to_nat batch_size) delay
    (if (batch_size <? 0)%Z then [] else py_range (length ads) (Z.to_nat batch_size))
    init_world [] ltac:(by intros i ts Hi)) as H.
  destruct (batch_loop _ _ _ _ _ _ _) as [w [res|e]]; done.
Qed.

(** ** Absorbed failures *)

Lemma get_titles_length batch titles :
  get_titles batch = Ok titles → length titles = length batch.
Proof.
  revert titles. induction batch as [|a rest IH]; intros titles; simpl.
  - by intros [= <-].
  - destruct (a !! "title"); [|done].
    destruct (get_titles rest) as [ts|]; [|done].
    intros [= <-]. simpl. f_equal. by apply IH.
Qed.

Lemma get_titles_has_title batch :
  Forall has_title batch → ∃ titles, get_titles batch = Ok titles.
Proof.
  induction 1 as [|a rest [t Ht] _ [ts IH]]; simpl; [by eexists|].
  rewrite Ht, IH. by eexists.
Qed.

Lemma attempt_loop_absorbed srv titles retry attempts w :
  (∀ i ts, absorbed_failure (srv i ts) || success ts (srv i ts) = true) →
  ∃ w' r, attempt_loop srv titles retry attempts w = (w', Ok r)
          ∧ ∀ processed, r = Some processed → length processed ≤ length titles.
Proof.
  intros Hsrv. revert w.
  induction attempts as [|attempt rest IH]; intros w.
  - exists w, None. done.
  - simpl attempt_loop. unfold post. simpl.
    specialize (Hsrv (length (requests w)) titles).
    destruct (srv (length (requests w)) titles) as [status b| |]; simpl in Hsrv.
    + unfold HTTP_OK, HTTP_UNAUTHORIZED, HTTP_RATE_LIMIT, HTTP_SERVER_ERROR in *.
      destruct (Z.eqb_spec status 200).
      { destruct b as [|pd]; simpl in Hsrv.
        - eexists _, _. split; [done|]. intros p [= <-]. simpl. lia.
        - eexists _, _. split; [done|]. intros p [= <-].
          by apply Nat.leb_le. }
      destruct (Z.eqb_spec status 401).
      { by destruct b. }
      destruct (Z.eqb_spec status 429); [apply IH|].
      destruct (Z.leb_spec 500 status); [apply IH|].
      eexists _, _. split; [done|]. intros p [= <-]. simpl. lia.
    + destruct (attempt <? retry - 1); apply IH.
    + eexists _, _. split; [done|]. intros p [= <-]. simpl. lia.
Qed.

Lemma enrich_batch_absorbed srv titles retry w :
  (∀ i ts, absorbed_failure (srv i ts) || success ts (srv i ts) = true) →
  ∃ w' processed, enrich_batch srv titles retry w = (w', Ok processed)
                  ∧ length processed ≤ length titles.
Proof.
  intros Hsrv. unfold enrich_batch.
  destruct (attempt_loop_absorbed srv titles retry (seq 0 retry) w Hsrv)
    as (w' & r & -> & Hlen).
  destruct r as [p|].
  - exists w', p. split; [done|]. by apply Hlen.
  - eexists _, _. split; [done|]. simpl. lia.
Qed.

Lemma batch_loop_absorbed srv ads b delay indices w results :
  (∀ i ts, absorbed_failure (srv i ts) || success ts (srv i ts) = true) →
  Forall has_title ads →
  ∃ w' results', batch_loop srv ads b delay indices w results = (w', Ok results').
Proof.
  intros Hsrv Hads. revert w results.
  induction indices as [|i rest IH]; intros w results; simpl.
  - by eexists _, _.
  - destruct (get_titles_has_title (slice ads i b)) as [titles Ht].
    { unfold slice. by apply Forall_take, Forall_drop. }
    rewrite Ht.
    destruct (enrich_batch_absorbed srv titles 3 w Hsrv)
      as (w1 & enriched & -> & Hlen).
    unfold enumerate. rewrite merge_loop_in_range.
    + apply IH.
    + apply get_titles_length in Ht. simpl. lia.
Qed.

(** ** C1 *)

(** C1: for every run of [enrich_all_ads], (1) a payload of the request log
    that the service answered with an HTTP 401 is the last payload sent - so
    its batch was not retried and no later batch was sent - and the run ends
    by raising [AuthError]; (2) the run raises [AuthError] only in that case;
    and (3) when every answer of the service is either a well-formed success
    or one of the other failures (rate limit, timeout, server error,
    unparseable body, unexpected status, transport fault), the run returns
    normally, provided every record has a title and the batch size is not
    zero. *)
Theorem auth_failure_fatal_others_absorbed (srv : service) (ads : list dict)
    (batch_size : Z) (delay : Q) :
  let run := enrich_all_ads srv ads batch_size delay in
  (∀ i titles,
      requests run.1 !! i = Some titles →
      unauthorized (srv i titles) = true →
      run.2 = Raise AuthError ∧ S i = length (requests run.1))
  ∧ (run.2 = Raise AuthError →
     ∃ log titles, requests run.1 = log ++ [titles]
                   ∧ unauthorized (srv (length log) titles) = true)
  ∧ ((∀ i titles,
         absorbed_failure (srv i titles) || success titles (srv i titles) = true) →
     Forall has_title ads →
     batch_size ≠ 0%Z →
     ∃ res, run.2 = Ok res).
Proof.
  intros run. pose proof (enrich_all_ads_auth srv ads batch_size delay) as Hpost.
  fold run in Hpost. split; [|split].
  - intros i titles Hi Hun.
    destruct (run.2) as [res|e] eqn:Hr.
    { simpl in Hpost. rewrite (Hpost i titles Hi) in Hun. done. }
    destruct e; simpl in Hpost;
      try (rewrite (Hpost i titles Hi) in Hun; done).
    destruct Hpost as (log & last & Hlog & Hlast & Hno).
    rewrite Hlog in Hi |- *. split; [done|].
    rewrite length_app. simpl.
    apply lookup_app_Some in Hi as [Hi|[Hge Hi]].
    + rewrite (Hno i titles Hi) in Hun. done.
    + apply list_lookup_singleton_Some in Hi as [Hi _]. lia.
  - intros Hr. rewrite Hr in Hpost. simpl in Hpost.
    destruct Hpost as (log & last & Hlog & Hlast & _). by exists log, last.
  - intros Hsrv Hads Hb. subst run. unfold enrich_all_ads.
    destruct (Z.eqb_spec batch_size 0); [done|].
    destruct (batch_loop_absorbed srv ads (Z.to_nat batch_size) delay
      (if (batch_size <? 0)%Z then [] else py_range (length ads) (Z.to_nat batch_size))
      init_world [] Hsrv Hads) as (w' & results' & ->).
    by eexists.
Qed.

Lemma auth_failure_fatal_others_absorbed_witness :
  let ads : list dict :=
    [{["title" := VStr "a"]}; {["title" := VStr "b"]}; {["title" := VStr "c"]}] in
  let srv : service :=
    λ i _, if i =? 1 then Response 401 BadBody
           else Response 200 (JsonObject (Some [])) in
  ((enrich_all_ads srv ads 1 0).2 = Raise AuthError
   ∧ 2 = length (requests (enrich_all_ads srv ads 1 0).1))
  ∧ ∃ res, (enrich_all_ads (λ _ _, TimeoutException) ads 1 0).2 = Ok res.
Proof.
  intros ads srv. split.
  - destruct (auth_failure_fatal_others_absorbed srv ads 1 0) as (H & _ & _).
    apply (H 1 [VStr "b"]); reflexivity.
  - destruct (auth_failure_fatal_others_absorbed (λ _ _, TimeoutException) ads 1 0)
      as (_ & _ & H).
    apply H.
    + intros i titles. reflexivity.
    + repeat constructor; eexists; reflexivity.
    + discriminate.
Defined.

(** ** Batching *)

Lemma get_titles_slice ads all_titles i b :
  get_titles ads = Ok all_titles →
  get_titles (slice ads i b) = Ok (take b (drop i all_titles)).
Proof.
  unfold slice. intros Hall.
  assert (Hdrop : get_titles (drop i ads) = Ok (drop i all_titles)).
  { revert all_titles i Hall. induction ads as [|a rest IH]; intros all_titles i; simpl.
    - intros [= <-]. by destruct i.
    - destruct (a !! "title") as [t|] eqn:Ht; [|done].
      destruct (get_titles rest) as [ts|] eqn:Hts; [|done].
      intros [= <-]. destruct i as [|i]; simpl.
      + by rewrite Ht, Hts.
      + by apply IH. }
  revert Hdrop. generalize (drop i ads) (drop i all_titles). clear.
  intros l. revert b. induction l as [|a rest IH]; intros b ts; simpl.
  - intros [= <-]. by destruct b.
  - destruct (a !! "title") as [t|] eqn:Ht; [|done].
    destruct (get_titles rest) as [ts'|] eqn:Hts; [|done].
    intros [= <-]. destruct b as [|b]; simpl; [done|].
    rewrite Ht. by rewrite (IH b ts').
Qed.

Lemma enrich_batch_first_success srv titles retry w :
  success titles (srv (length (requests w)) titles) = true →
  ∃ w' processed,
    enrich_batch srv titles (S retry) w = (w', Ok processed)
    ∧ requests w' = requests w ++ [titles]
    ∧ length processed ≤ length titles.
Proof.
  intros Hs. unfold enrich_batch. simpl seq. simpl attempt_loop.
  unfold post. simpl.
  destruct (srv (length (requests w)) titles) as [status [|pd]| |]; try done.
  simpl in Hs. apply andb_true_iff in Hs as [-> Hlen].
  eexists _, _. split; [done|]. split; [done|]. by apply Nat.leb_le.
Qed.

Lemma batch_loop_success srv ads all_titles b delay indices w results :
  get_titles ads = Ok all_titles →
  (∀ k i, indices !! k = Some i →
          success (take b (drop i all_titles))
                  (srv (length (requests w) + k) (take b (drop i all_titles))) = true) →
  ∃ w' results',
    batch_loop srv ads b delay indices w results = (w', Ok results')
    ∧ requests w' = requests w ++ ((λ i, take b (drop i all_titles)) <$> indices).
Proof.
  intros Hall. revert w results.
  induction indices as [|i rest IH]; intros w results Hsrv; simpl.
  - eexists _, _. by rewrite app_nil_r.
  - pose proof (get_titles_slice ads all_titles i b Hall) as Ht. rewrite Ht.
    destruct (enrich_batch_first_success srv (take b (drop i all_titles)) 2 w)
      as (w1 & enriched & -> & Hreq & Hlen).
    { specialize (Hsrv 0 i eq_refl). by rewrite Nat.add_0_r in Hsrv. }
    unfold enumerate. rewrite merge_loop_in_range.
    2:{ apply get_titles_length in Ht. simpl. lia. }
    destruct (IH (if i + b <? length ads then sleep delay w1 else w1)
                 (results ++ zip_with merge_dicts (drop 0 (slice ads i b)) enriched))
      as (w' & results' & -> & Hreq').
    + intros k i' Hk.
      replace (requests (if i + b <? length ads then sleep delay w1 else w1))
        with (requests w1) by (by destruct (i + b <? length ads)).
      rewrite Hreq, length_app. simpl.
      replace (length (requests w) + 1 + k) with (length (requests w) + S k) by lia.
      by apply Hsrv.
    + eexists _, _. split; [done|].
      rewrite Hreq'.
      replace (requests (if i + b <? length ads then sleep delay w1 else w1))
        with (requests w1) by (by destruct (i + b <? length ads)).
      by rewrite Hreq, <- app_assoc.
Qed.

(** The indices [range(0, stop, step)] visits. *)
Lemma ceil_div_step m b :
  0 < b → 0 < m → (m + b - 1) / b = S ((m - b + b - 1) / b).
Proof.
  intros Hb Hm. destruct (decide (b ≤ m)) as [Hle|Hlt].
  - replace (m + b - 1) with ((m - b + b - 1) + 1 * b) by lia.
    rewrite Nat.div_add by lia. lia.
  - replace (m + b - 1) with ((m - 1) + 1 * b) by lia.
    rewrite Nat.div_add by lia.
    rewrite (Nat.div_small (m - 1)) by lia.
    replace (m - b + b - 1) with (b - 1) by lia.
    rewrite (Nat.div_small (b - 1)) by lia. done.
Qed.

Lemma range_from_spec fuel i stop step :
  0 < step → stop - i ≤ fuel →
  range_from fuel i stop step
  = (λ k, i + k * step) <$> seq 0 ((stop - i + step - 1) / step).
Proof.
  intros Hstep. revert i.
  induction fuel as [|fuel IH]; intros i Hfuel; simpl.
  - replace (stop - i + step - 1) with (step - 1) by lia.
    by rewrite Nat.div_small by lia.
  - destruct (Nat.ltb_spec i stop) as [Hlt|Hge].
    + rewrite (ceil_div_step (stop - i) step) by lia.
      rewrite IH by lia. simpl. f_equal; [lia|].
      replace (stop - (i + step) + step - 1) with (stop - i - step + step - 1) by lia.
      rewrite <- (fmap_S_seq 0), <- list_fmap_compose.
      apply list_fmap_ext. intros _ k _. simpl. lia.
    + replace (stop - i + step - 1) with (step - 1) by lia.
      by rewrite Nat.div_small by lia.
Qed.

Lemma py_range_spec stop step :
  0 < step →
  py_range stop step = (λ k, k * step) <$> seq 0 ((stop + step - 1) / step).
Proof.
  intros Hstep. unfold py_range. rewrite range_from_spec by lia.
  by rewrite Nat.sub_0_r.
Qed.

Lemma concat_chunks b (l : list value) j c :
  concat (chunk b l <$> seq j c) = take (c * b) (drop (j * b) l).
Proof.
  revert j. induction c as [|c IH]; intros j; simpl; [done|].
  rewrite IH. unfold chunk.
  replace (S j * b) with (j * b + b) by lia.
  rewrite <- drop_drop. by rewrite take_take_drop.
Qed.

Lemma ceil_div_bounds n b :
  0 < b → n ≤ (n + b - 1) / b * b ∧ (n + b - 1) / b * b < n + b.
Proof.
  intros Hb.
  pose proof (Nat.div_mod_eq (n + b - 1) b) as Hdm.
  pose proof (Nat.mod_upper_bound (n + b - 1) b ltac:(lia)) as Hmod.
  nia.
Qed.

(** ** C4 *)

(** C4: for every batch size [b > 0] (smaller than the number [n] of records
    or not), when the request for each batch is answered at the first attempt
    with a well-formed success, [enrich_all_ads] returns normally having sent
    exactly [ceil(n / b)] requests; the [k]-th request carries the titles of
    the records [k*b, ..., k*b + b - 1], so the requests taken in order are
    the titles of the input in input order, each request carries at most [b]
    titles, and every request but the last carries exactly [b]. *)
Theorem batches_partition (srv : service) (ads : list dict) (b : nat) (delay : Q)
    (all_titles : list value) :
  0 < b →
  get_titles ads = Ok all_titles →
  (∀ k, k < (length ads + b - 1) / b →
        success (chunk b all_titles k) (srv k (chunk b all_titles k)) = true) →
  let run := enrich_all_ads srv ads (Z.of_nat b) delay in
  let reqs := requests run.1 in
  is_ok run.2 = true
  ∧ length reqs = (length ads + b - 1) / b
  ∧ (length ads ≤ length reqs * b ∧ length reqs * b < length ads + b)
  ∧ reqs = chunk b all_titles <$> seq 0 (length reqs)
  ∧ concat reqs = all_titles
  ∧ Forall (λ titles, length titles ≤ b) reqs
  ∧ (∀ k titles, reqs !! k = Some titles → S k < length reqs → length titles = b).
Proof.
  intros Hb Hall Hsrv run reqs.
  pose proof (get_titles_length _ _ Hall) as Hn.
  set (c := (length ads + b - 1) / b) in *.
  assert (Hrun : is_ok run.2 = true ∧ reqs = chunk b all_titles <$> seq 0 c).
  { subst run reqs. unfold enrich_all_ads.
    destruct (Z.eqb_spec (Z.of_nat b) 0); [lia|].
    destruct (Z.ltb_spec (Z.of_nat b) 0); [lia|].
    rewrite Nat2Z.id, py_range_spec by done. fold c.
    destruct (batch_loop_success srv ads all_titles b delay
                ((λ k, k * b) <$> seq 0 c) init_world [] Hall)
      as (w' & results' & -> & Hreq).
    - intros k i Hk. rewrite list_lookup_fmap in Hk.
      destruct (seq 0 c !! k) as [k'|] eqn:Hseq; [|done].
      apply lookup_seq in Hseq as [-> Hlt]. simpl in Hk. injection Hk as <-.
      simpl. by apply Hsrv.
    - simpl. split; [done|]. rewrite Hreq. simpl.
      rewrite <- list_fmap_compose. done. }
  destruct Hrun as [Hok Hreqs].
  assert (Hlen : length reqs = c) by (by rewrite Hreqs, length_fmap, length_seq).
  destruct (ceil_div_bounds (length ads) b Hb) as [Hlo Hhi]. fold c in Hlo, Hhi.
  repeat split.
  - done.
  - done.
  - by rewrite Hlen.
  - by rewrite Hlen.
  - by rewrite Hlen.
  - rewrite Hreqs, concat_chunks. simpl. rewrite drop_0.
    apply take_ge. lia.
  - rewrite Hreqs. apply Forall_fmap, Forall_forall. intros k _.
    simpl. unfold chunk. rewrite length_take. lia.
  - intros k titles Hk Hlast. rewrite Hreqs, list_lookup_fmap in Hk.
    destruct (seq 0 c !! k) as [k'|] eqn:Hseq; [|done].
    apply lookup_seq in Hseq as [-> Hlt]. simpl in Hk. injection Hk as <-.
    unfold chunk. rewrite length_take, length_drop.
    rewrite Hlen in Hlast. nia.
Qed.

Lemma batches_partition_witness :
  let ads : list dict :=
    [{["title" := VStr "a"]}; {["title" := VStr "b"]}; {["title" := VStr "c"]}] in
  let srv : service := λ _ titles, Response 200 (JsonObject (Some [])) in
  length (requests (enrich_all_ads srv ads 2 0).1) = 2
  ∧ concat (requests (enrich_all_ads srv ads 2 0).1) = [VStr "a"; VStr "b"; VStr "c"].
Proof.
  intros ads srv.
  destruct (batches_partition srv ads 2 0 [VStr "a"; VStr "b"; VStr "c"])
    as (_ & H1 & _ & _ & H2 & _).
  - lia.
  - reflexivity.
  - intros k _. reflexivity.
  - split; [exact H1 | exact H2].
Defined.

Lemma surplus_objects_raise_witness :
  let ads : list dict := [{["title" := VStr "a"]}; {["title" := VStr "b"]}] in
  let srv : service :=
    λ _ _, Response 200 (JsonObject (Some [∅; ∅])) in
  (batch_loop srv ads 1 0 [0; 1] init_world []).2 = Raise IndexError
  ∧ (enrich_all_ads srv ads 1 0).2 = Raise IndexError.
Proof.
  intros ads srv. split; [|reflexivity].
  destruct (surplus_objects_raise srv ads 1 0 0 [1] init_world
              (enrich_batch srv [VStr "a"] 3 init_world).1 []
              [VStr "a"] [∅; ∅]) as [_ H].
  - reflexivity.
  - reflexivity.
  - simpl. lia.
  - by rewrite H.
Defined.

(** ** C5 *)

Lemma occurrences_S p srv titles start n :
  occurrences p srv titles start (S n)
  = (if p (srv start titles) then 1 else 0) + occurrences p srv titles (S start) n.
Proof.
  unfold occurrences. simpl seq. rewrite filter_cons.
  destruct (p (srv start titles)); case_decide; done.
Qed.

Lemma attempt_loop_counters srv titles retry attempts w :
  let w' := (attempt_loop srv titles retry attempts w).1 in
  ∃ n,
    requests w' = requests w ++ replicate n titles
    ∧ timeout_errors (stats w')
      = timeout_errors (stats w)
        + length titles * occurrences is_timeout srv titles (length (requests w)) n
    ∧ other_errors (stats w')
      = other_errors (stats w)
        + length titles * occurrences is_status_error srv titles (length (requests w)) n
        + occurrences is_bad_body srv titles (length (requests w)) n.
Proof.
  revert w. induction attempts as [|attempt rest IH]; intros w.
  - exists 0. simpl. rewrite app_nil_r. unfold occurrences. simpl.
    split; [done|]. lia.
  - assert (Hstop : ∀ w1 : World,
              requests w1 = requests w ++ [titles] →
              timeout_errors (stats w1)
              = timeout_errors (stats w)
                + length titles
                  * (if is_timeout (srv (length (requests w)) titles) then 1 else 0) →
              other_errors (stats w1)
              = other_errors (stats w)
                + length titles
                  * (if is_status_error (srv (length (requests w)) titles) then 1 else 0)
                + (if is_bad_body (srv (length (requests w)) titles) then 1 else 0) →
              ∃ n,
                requests w1 = requests w ++ replicate n titles
                ∧ timeout_errors (stats w1)
                  = timeout_errors (stats w)
                    + length titles
                      * occurrences is_timeout srv titles (length (requests w)) n
                ∧ other_errors (stats w1)
                  = other_errors (stats w)
                    + length titles
                      * occurrences is_status_error srv titles (length (requests w)) n
                    + occurrences is_bad_body srv titles (length (requests w)) n).
    { intros w1 Hreq Ht Ho. exists 1. rewrite !occurrences_S.
      unfold occurrences. simpl. split; [done|]. lia. }
    assert (Hnext : ∀ w1 : World,
              requests w1 = requests w ++ [titles] →
              timeout_errors (stats w1)
              = timeout_errors (stats w)
                + length titles
                  * (if is_timeout (srv (length (requests w)) titles) then 1 else 0) →
              other_errors (stats w1)
              = other_errors (stats w)
                + length titles
                  * (if is_status_error (srv (length (requests w)) titles) then 1 else 0)
                + (if is_bad_body (srv (length (requests w)) titles) then 1 else 0) →
              let w' := (attempt_loop srv titles retry rest w1).1 in
              ∃ n,
                requests w' = requests w ++ replicate n titles
                ∧ timeout_errors (stats w')
                  = timeout_errors (stats w)
                    + length titles
                      * occurrences is_timeout srv titles (length (requests w)) n
                ∧ other_errors (stats w')
                  = other_errors (stats w)
                    + length titles
                      * occurrences is_status_error srv titles (length (requests w)) n
                    + occurrences is_bad_body srv titles (length (requests w)) n).
    { intros w1 Hreq Ht Ho. destruct (IH w1) as (n & Hr & Ht' & Ho').
      exists (S n). rewrite !occurrences_S.
      rewrite Hreq in Hr. rewrite Hreq, length_app in Ht', Ho'.
      simpl in Hr, Ht', Ho'.
      replace (length (requests w) + 1) with (S (length (requests w))) in * by lia.
      split; [by rewrite Hr, <- app_assoc|]. lia. }
    simpl attempt_loop. unfold post. simpl.
    destruct (srv (length (requests w)) titles) as [status b| |] eqn:Hsrv.
    + unfold is_status_error, is_bad_body in Hstop, Hnext.
      unfold HTTP_OK, HTTP_UNAUTHORIZED, HTTP_RATE_LIMIT, HTTP_SERVER_ERROR in *.
      destruct (Z.eqb_spec status 200).
      { destruct b; apply Hstop; simpl; try done; lia. }
      destruct (Z.eqb_spec status 401).
      { apply Hstop; simpl; try done; destruct b; lia. }
      destruct (Z.eqb_spec status 429).
      { apply Hnext; simpl; try done; destruct b; lia. }
      destruct (Z.leb_spec 500 status).
      { apply Hnext; simpl; try done; destruct b; lia. }
      apply Hstop; simpl; try done; destruct b; lia.
    + destruct (attempt <? retry - 1); apply Hnext; simpl; try done; lia.
    + apply Hstop; simpl; try done; lia.
Qed.

(** C5 as stated fails: one timeout on a batch of two titles adds 2 to
    [timeout_errors], so the counter is not a count of occurrences. *)
Lemma timeout_counter_not_per_occurrence :
  ¬ (∀ (titles : list value) (w : World),
       let w' := (enrich_batch (λ _ _, TimeoutException) titles 1 w).1 in
       requests w' = requests w ++ [titles]
       → timeout_errors (stats w') = timeout_errors (stats w) + 1).
Proof.
  intros H. specialize (H [VStr "a"; VStr "b"] init_world eq_refl).
  discriminate H.
Qed.

(** C5, amended: over a call of [enrich_batch], [timeout_errors] grows by the
    number of titles of the batch for each timeout among the requests the
    call made, and [other_errors] grows by the number of titles of the batch
    for each request answered with an HTTP 401, an unexpected status or a
    transport fault (as long as no request of the call was answered with an
    unparseable HTTP 200 body). *)
Theorem error_counters_count_titles (srv : service) (titles : list value)
    (retry : nat) (w : World) :
  let w' := (enrich_batch srv titles retry w).1 in
  ∃ n,
    requests w' = requests w ++ replicate n titles
    ∧ timeout_errors (stats w')
      = timeout_errors (stats w)
        + length titles * occurrences is_timeout srv titles (length (requests w)) n
    ∧ (occurrences is_bad_body srv titles (length (requests w)) n = 0 →
       other_errors (stats w')
       = other_errors (stats w)
         + length titles
           * occurrences is_status_error srv titles (length (requests w)) n).
Proof.
  intros w'. subst w'. unfold enrich_batch.
  destruct (attempt_loop_counters srv titles retry (seq 0 retry) w)
    as (n & Hr & Ht & Ho).
  exists n.
  destruct (attempt_loop srv titles retry (seq 0 retry) w) as [w1 [[pr|]|e]];
    simpl in *; (split; [done|]); (split; [done|]); lia.
Qed.

Lemma error_counters_count_titles_witness :
  let titles := [VStr "a"; VStr "b"] in
  let srv : service := λ i _, if i =? 0 then TimeoutException else Response 418 BadBody in
  let w' := (enrich_batch srv titles 3 init_world).1 in
  timeout_errors (stats w') = 2 ∧ other_errors (stats w') = 2.
Proof.
  intros titles srv w'.
  destruct (error_counters_count_titles srv titles 3 init_world)
    as (n & Hr & Ht & Ho).
  fold w' in Hr, Ht, Ho.
  assert (Hn : n = 2).
  { apply (f_equal length) in Hr. rewrite length_app, length_replicate in Hr.
    simpl in Hr. lia. }
  subst n. split.
  - rewrite Ht. reflexivity.
  - rewrite Ho; reflexivity.
Defined.

(** ** Further properties of [enrich_batch] *)

(** The requests one call makes, and what it adds to the counters of titles
    sent, classified and failed. *)
Lemma attempt_loop_accounting srv titles retry attempts w :
  let run := attempt_loop srv titles retry attempts w in
  ∃ n,
    n ≤ length attempts
    ∧ (attempts ≠ [] → 0 < n)
    ∧ requests run.1 = requests w ++ replicate n titles
    ∧ total_sent (stats run.1) = total_sent (stats w) + n * length titles
    ∧ total_failed (stats run.1) = total_failed (stats w)
    ∧ total_success (stats run.1)
      = total_success (stats w)
        + match run.2 with Ok (Some processed) => length processed | _ => 0 end
    ∧ (run.2 = Ok None → n = length attempts).
Proof.
  revert w. induction attempts as [|attempt rest IH]; intros w.
  - exists 0. simpl. rewrite app_nil_r. repeat split; try done; lia.
  - assert (Hnext : ∀ w1 : World,
              requests w1 = requests w ++ [titles] →
              total_sent (stats w1) = total_sent (stats w) + length titles →
              total_failed (stats w1) = total_failed (stats w) →
              total_success (stats w1) = total_success (stats w) →
              let run := attempt_loop srv titles retry rest w1 in
              ∃ n,
                n ≤ length (attempt :: rest)
                ∧ (attempt :: rest ≠ [] → 0 < n)
                ∧ requests run.1 = requests w ++ replicate n titles
                ∧ total_sent (stats run.1) = total_sent (stats w) + n * length titles
                ∧ total_failed (stats run.1) = total_failed (stats w)
                ∧ total_success (stats run.1)
                  = total_success (stats w)
                    + match run.2 with
                      | Ok (Some processed) => length processed
                      | _ => 0
                      end
                ∧ (run.2 = Ok None → n = length (attempt :: rest))).
    { intros w1 Hreq Hsent Hfail Hsucc.
      destruct (IH w1) as (n & Hn & _ & Hr & Hs & Hf & Hok & Hnone).
      exists (S n). simpl. repeat split; try lia.
      - by rewrite Hr, Hreq, <- app_assoc.
      - intros Hrun. by rewrite (Hnone Hrun). }
    simpl attempt_loop. unfold post. simpl.
    destruct (srv (length (requests w)) titles) as [status b| |].
    + destruct (status =? HTTP_OK)%Z.
      { destruct b; exists 1; simpl; repeat split; try done; lia. }
      destruct (status =? HTTP_UNAUTHORIZED)%Z.
      { exists 1; simpl; repeat split; try done; lia. }
      destruct (status =? HTTP_RATE_LIMIT)%Z; [by apply Hnext|].
      destruct (HTTP_SERVER_ERROR <=? status)%Z; [by apply Hnext|].
      exists 1; simpl; repeat split; try done; lia.
    + destruct (attempt <? retry - 1); by apply Hnext.
    + exists 1. simpl. repeat split; try done; lia.
Qed.

Lemma enrich_batch_accounting srv titles retry w :
  let run := enrich_batch srv titles retry w in
  ∃ n,
    n ≤ retry
    ∧ (0 < retry → 0 < n)
    ∧ requests run.1 = requests w ++ replicate n titles
    ∧ total_sent (stats run.1) = total_sent (stats w) + n * length titles
    ∧ (∀ processed,
         run.2 = Ok processed →
         total_success (stats run.1) = total_success (stats w) + length processed)
    ∧ (total_failed (stats run.1) = total_failed (stats w)
       ∨ (total_failed (stats run.1) = total_failed (stats w) + length titles
          ∧ run.2 = Ok [] ∧ n = retry)).
Proof.
  unfold enrich_batch.
  destruct (attempt_loop_accounting srv titles retry (seq 0 retry) w)
    as (n & Hn & Hpos & Hr & Hs & Hf & Hok & Hnone).
  rewrite length_seq in Hn, Hnone.
  exists n.
  destruct (attempt_loop srv titles retry (seq 0 retry) w) as [w1 [[l|]|e]];
    simpl in *.
  - repeat split; try done.
    + intros Hretry. apply Hpos. destruct retry; [lia|done].
    + by intros processed [= <-].
    + by left.
  - repeat split; try done.
    + intros Hretry. apply Hpos. destruct retry; [lia|done].
    + intros processed [= <-]. simpl. lia.
    + right. rewrite (Hnone eq_refl). simpl. by rewrite Hf.
  - repeat split; try done.
    + intros Hretry. apply Hpos. destruct retry; [lia|done].
    + by left.
Qed.

(** X1: one call of [enrich_batch] sends the same payload between 1 and
    [retry] times (never more), adds the number of titles to [total_sent]
    for each request, adds the length of the list it returns to
    [total_success], and touches [total_failed] only when all [retry]
    attempts were used, by the number of titles. *)
Theorem enrich_batch_counts (srv : service) (titles : list value) (retry : nat)
    (w : World) :
  let run := enrich_batch srv titles retry w in
  ∃ n,
    n ≤ retry
    ∧ (0 < retry → 0 < n)
    ∧ requests run.1 = requests w ++ replicate n titles
    ∧ total_sent (stats run.1) = total_sent (stats w) + n * length titles
    ∧ (∀ processed,
         run.2 = Ok processed →
         total_success (stats run.1) = total_success (stats w) + length processed)
    ∧ (total_failed (stats run.1) = total_failed (stats w)
       ∨ (total_failed (stats run.1) = total_failed (stats w) + length titles
          ∧ run.2 = Ok [] ∧ n = retry)).
Proof.
  unfold enrich_batch.
  destruct (attempt_loop_accounting srv titles retry (seq 0 retry) w)
    as (n & Hn & Hpos & Hr & Hs & Hf & Hok & Hnone).
  rewrite length_seq in Hn, Hnone.
  assert (Hfirst : 0 < retry → 0 < n).
  { intros Hretry. apply Hpos. destruct retry; [lia|done]. }
  exists n.
  destruct (attempt_loop srv titles retry (seq 0 retry) w) as [w1 [[l|]|e]];
    simpl in *; repeat split; try done.
  - by intros processed [= <-].
  - by left.
  - intros processed [= <-]. simpl. lia.
  - right. rewrite (Hnone eq_refl). simpl. by rewrite Hf.
  - by left.
Qed.

Lemma attempt_loop_rate_limited srv titles retry n a w :
  (∀ k, k < n → is_rate_limited (srv (length (requests w) + k) titles) = true) →
  let run := attempt_loop srv titles retry (seq a n) w in
  run.2 = Ok None
  ∧ sleeps run.1 = sleeps w ++ (backoff <$> seq a n)
  ∧ rate_limit_hits (stats run.1) = rate_limit_hits (stats w) + n
  ∧ retry_count (stats run.1) = retry_count (stats w) + n.
Proof.
  revert a w. induction n as [|n IH]; intros a w Hall.
  - simpl. rewrite app_nil_r. repeat split; lia.
  - pose proof (Hall 0 ltac:(lia)) as H0. rewrite Nat.add_0_r in H0.
    simpl seq. simpl attempt_loop. unfold post. simpl.
    destruct (srv (length (requests w)) titles) as [status b| |]; try done.
    simpl in H0. unfold HTTP_OK, HTTP_UNAUTHORIZED, HTTP_RATE_LIMIT in *.
    apply Z.eqb_eq in H0 as ->. simpl.
    match goal with
    | |- context [attempt_loop _ _ _ _ ?w1] =>
      destruct (IH (S a) w1) as (Hr & Hs & Hh & Hc)
    end.
    { intros k Hk. simpl. rewrite length_app. simpl.
      replace (length (requests w) + 1 + k) with (length (requests w) + S k) by lia.
      apply Hall. lia. }
    simpl in *. repeat split; try done; try lia.
    rewrite Hs, <- app_assoc. done.
Qed.

(** X2: when every one of the [retry] attempts of a batch is answered with
    an HTTP 429, [enrich_batch] pauses after each of them for 2, 4, 8, ...
    seconds - the pause doubles from one attempt to the next - counts
    [retry] rate-limit hits and [retry] retries, and returns the empty
    list. *)
Theorem rate_limit_backoff_doubles (srv : service) (titles : list value)
    (retry : nat) (w : World) :
  (∀ k, k < retry →
        is_rate_limited (srv (length (requests w) + k) titles) = true) →
  let run := enrich_batch srv titles retry w in
  run.2 = Ok []
  ∧ sleeps run.1 = sleeps w ++ (backoff <$> seq 0 retry)
  ∧ rate_limit_hits (stats run.1) = rate_limit_hits (stats w) + retry
  ∧ retry_count (stats run.1) = retry_count (stats w) + retry
  ∧ backoff 0 = 2%Q
  ∧ ∀ k, (backoff (S k) == 2 * backoff k)%Q.
Proof.
  intros Hall run. subst run. unfold enrich_batch.
  destruct (attempt_loop_rate_limited srv titles retry retry 0 w Hall)
    as (Hr & Hs & Hh & Hc).
  destruct (attempt_loop srv titles retry (seq 0 retry) w) as [w1 r].
  simpl in *. subst r. simpl. repeat split; try done.
  intros k. unfold backoff.
  replace (Z.of_nat (S k) + 1)%Z with (Z.succ (Z.of_nat k + 1)) by lia.
  rewrite Z.pow_succ_r by lia.
  unfold Qeq. simpl. lia.
Qed.

Lemma rate_limit_backoff_doubles_witness :
  sleeps (enrich_batch (λ _ _, Response 429 BadBody) [VStr "a"] 3 init_world).1
  = [2%Q; 4%Q; 8%Q].
Proof.
  destruct (rate_limit_backoff_doubles (λ _ _, Response 429 BadBody)
              [VStr "a"] 3 init_world) as (_ & H & _).
  - intros k _. reflexivity.
  - exact H.
Defined.

(** X3: when the first attempt of a batch is answered with an HTTP 429 and
    the second with an HTTP 200 whose body parses, [enrich_batch] (with at
    least two attempts allowed) returns the list of the second answer after
    exactly two requests and one pause of 2 seconds, having counted one
    rate-limit hit and one retry. *)
Theorem rate_limit_then_success (srv : service) (titles : list value)
    (retry : nat) (w : World) (processed_data : option (list dict)) :
  is_rate_limited (srv (length (requests w)) titles) = true →
  srv (S (length (requests w))) titles
  = Response HTTP_OK (JsonObject processed_data) →
  let run := enrich_batch srv titles (S (S retry)) w in
  run.2 = Ok (default [] processed_data)
  ∧ requests run.1 = requests w ++ [titles; titles]
  ∧ sleeps run.1 = sleeps w ++ [2%Q]
  ∧ rate_limit_hits (stats run.1) = rate_limit_hits (stats w) + 1
  ∧ retry_count (stats run.1) = retry_count (stats w) + 1
  ∧ total_failed (stats run.1) = total_failed (stats w).
Proof.
  intros H429 H200 run. subst run. unfold enrich_batch.
  simpl seq. simpl attempt_loop. unfold post. simpl.
  destruct (srv (length (requests w)) titles) as [status b| |]; try done.
  simpl in H429. unfold HTTP_OK, HTTP_UNAUTHORIZED, HTTP_RATE_LIMIT in *.
  apply Z.eqb_eq in H429 as ->. simpl.
  rewrite length_app. simpl.
  replace (length (requests w) + 1) with (S (length (requests w))) by lia.
  rewrite H200. simpl. rewrite <- app_assoc. done.
Qed.

Lemma rate_limit_then_success_witness :
  let srv : service :=
    λ i _, if i =? 0 then Response 429 BadBody
           else Response 200 (JsonObject (Some [{["marka" := VStr "jcb"]}])) in
  (enrich_batch srv [VStr "a"] 2 init_world).2 = Ok [{["marka" := VStr "jcb"]}].
Proof.
  intros srv.
  destruct (rate_limit_then_success srv [VStr "a"] 0 init_world
              (Some [{["marka" := VStr "jcb"]}])) as (H & _).
  - reflexivity.
  - reflexivity.
  - exact H.
Defined.

Lemma attempt_loop_timeouts srv titles retry n a w :
  a + n = retry →
  (∀ k, k < n → is_timeout (srv (length (requests w) + k) titles) = true) →
  let run := attempt_loop srv titles retry (seq a n) w in
  run.2 = Ok None
  ∧ sleeps run.1 = sleeps w ++ replicate (n - 1) 1%Q
  ∧ retry_count (stats run.1) = retry_count (stats w) + (n - 1).
Proof.
  revert a w. induction n as [|n IH]; intros a w Hsum Hall.
  - simpl. rewrite app_nil_r. repeat split; lia.
  - pose proof (Hall 0 ltac:(lia)) as H0. rewrite Nat.add_0_r in H0.
    simpl seq. simpl attempt_loop. unfold post. simpl.
    destruct (srv (length (requests w)) titles) as [status b| |]; try done.
    assert (Hshift : ∀ w1 : World,
              requests w1 = requests w ++ [titles] →
              ∀ k, k < n →
                   is_timeout (srv (length (requests w1) + k) titles) = true).
    { intros w1 Hreq k Hk. rewrite Hreq, length_app. simpl.
      replace (length (requests w) + 1 + k) with (length (requests w) + S k) by lia.
      apply Hall. lia. }
    destruct (Nat.ltb_spec a (retry - 1)) as [Hlt|Hge].
    + match goal with
      | |- context [attempt_loop _ _ _ _ ?w1] =>
        destruct (IH (S a) w1 ltac:(lia) (Hshift w1 eq_refl)) as (Hr & Hs & Hc)
      end.
      simpl in *. destruct n as [|n]; [lia|].
      simpl in *. rewrite Nat.sub_0_r in *.
      repeat split; try done; try lia.
      rewrite Hs, <- app_assoc. done.
    + assert (n = 0) as -> by lia. simpl. rewrite app_nil_r.
      repeat split; lia.
Qed.

(** X4: when every one of the [retry] attempts of a batch times out,
    [enrich_batch] pauses one second after each attempt but the last, so it
    counts [retry - 1] retries, and returns the empty list. *)
Theorem timeouts_retry_all_but_last (srv : service) (titles : list value)
    (retry : nat) (w : World) :
  (∀ k, k < retry → is_timeout (srv (length (requests w) + k) titles) = true) →
  let run := enrich_batch srv titles retry w in
  run.2 = Ok []
  ∧ sleeps run.1 = sleeps w ++ replicate (retry - 1) 1%Q
  ∧ retry_count (stats run.1) = retry_count (stats w) + (retry - 1).
Proof.
  intros Hall run. subst run. unfold enrich_batch.
  destruct (attempt_loop_timeouts srv titles retry retry 0 w eq_refl Hall)
    as (Hr & Hs & Hc).
  destruct (attempt_loop srv titles retry (seq 0 retry) w) as [w1 r].
  simpl in *. subst r. simpl. done.
Qed.

Lemma timeouts_retry_all_but_last_witness :
  retry_count
    (stats (enrich_batch (λ _ _, TimeoutException) [VStr "a"] 3 init_world).1) = 2.
Proof.
  destruct (timeouts_retry_all_but_last (λ _ _, TimeoutException)
              [VStr "a"] 3 init_world) as (_ & _ & H).
  - intros k _. reflexivity.
  - exact H.
Defined.

(** X5: when the first attempt of a batch is answered with an unparseable
    HTTP 200 body, with a status that is none of 200, 401, 429 and >= 500,
    or fails with a transport fault, [enrich_batch] gives the batch up at
    once: it has made one request, taken no pause, counted no retry, left
    [total_failed] as it was, and returns the empty list. *)
Theorem abandoned_batch_not_retried (srv : service) (titles : list value)
    (retry : nat) (w : World) :
  abandons (srv (length (requests w)) titles) = true →
  let run := enrich_batch srv titles (S retry) w in
  run.2 = Ok []
  ∧ requests run.1 = requests w ++ [titles]
  ∧ sleeps run.1 = sleeps w
  ∧ retry_count (stats run.1) = retry_count (stats w)
  ∧ total_failed (stats run.1) = total_failed (stats w)
  ∧ total_success (stats run.1) = total_success (stats w).
Proof.
  intros Hab run. subst run. unfold enrich_batch.
  simpl seq. simpl attempt_loop. unfold post. simpl.
  destruct (srv (length (requests w)) titles) as [status b| |]; try done.
  simpl in Hab.
  destruct (status =? HTTP_OK)%Z; [by destruct b|].
  destruct (status =? HTTP_UNAUTHORIZED)%Z; [done|].
  destruct (status =? HTTP_RATE_LIMIT)%Z; [done|].
  destruct (HTTP_SERVER_ERROR <=? status)%Z; done.
Qed.

Lemma abandoned_batch_not_retried_witness :
  requests (enrich_batch (λ _ _, Response 418 BadBody) [VStr "a"] 3 init_world).1
  = [[VStr "a"]].
Proof.
  destruct (abandoned_batch_not_retried (λ _ _, Response 418 BadBody)
              [VStr "a"] 2 init_world) as (_ & H & _).
  - reflexivity.
  - exact H.
Defined.

(** ** Further properties of [enrich_all_ads] *)

Lemma merge_loop_Ok batch enriched results results' :
  merge_loop batch (enumerate enriched) results = Ok results' →
  length enriched ≤ length batch
  ∧ results' = results ++ zip_with merge_dicts batch enriched.
Proof.
  unfold enumerate. intros Hm.
  destruct (decide (length enriched ≤ length batch)) as [Hle|Hgt].
  - rewrite merge_loop_in_range in Hm by (simpl; lia).
    injection Hm as <-. by rewrite drop_0.
  - rewrite merge_loop_out_of_range in Hm by (simpl; lia). done.
Qed.

Lemma get_titles_Forall batch titles :
  get_titles batch = Ok titles → Forall has_title batch.
Proof.
  revert titles. induction batch as [|a rest IH]; intros titles; simpl; [done|].
  destruct (a !! "title") as [t|] eqn:Ht; [|done].
  destruct (get_titles rest) as [ts|]; [|done].
  intros _. constructor; [by exists t|by eapply IH].
Qed.

Lemma merge_dicts_has_title ad item : has_title ad → has_title (merge_dicts ad item).
Proof.
  unfold has_title, merge_dicts. intros [t Ht].
  destruct (item !! "title") as [t'|] eqn:Hi.
  - exists t'. by apply lookup_union_Some_l.
  - exists t. by rewrite lookup_union_r.
Qed.

Lemma slice_length ads i b : length (slice ads i b) ≤ b.
Proof. unfold slice. rewrite length_take. lia. Qed.

(** What a run of the batch loop that returns normally keeps true. *)
Lemma batch_loop_invariant srv ads b delay indices w results w' results' :
  batch_loop srv ads b delay indices w results = (w', Ok results') →
  length results = total_success (stats w) →
  total_success (stats w) ≤ total_sent (stats w) →
  Forall has_title results →
  length results' = total_success (stats w')
  ∧ total_success (stats w') ≤ total_sent (stats w')
  ∧ Forall has_title results'.
Proof.
  revert w results. induction indices as [|i rest IH]; intros w results; simpl.
  - by intros [= <- <-].
  - destruct (get_titles (slice ads i b)) as [titles|e] eqn:Ht; [|done].
    pose proof (enrich_batch_accounting srv titles 3 w) as Hacc.
    destruct (enrich_batch srv titles 3 w) as [w1 [enriched|e]]; [|done].
    destruct Hacc as (n & Hn & Hpos & Hreq & Hsent & Hsucc & _). simpl in *.
    destruct (merge_loop _ _ results) as [results1|e] eqn:Hm; [|done].
    apply merge_loop_Ok in Hm as [Hle ->].
    intros Hrun Hlen Hss Htitle.
    specialize (Hsucc enriched eq_refl). specialize (Hpos ltac:(lia)).
    pose proof (get_titles_length _ _ Ht) as Hlt.
    apply (IH _ _ Hrun).
    + replace (stats (if i + b <? length ads then sleep delay w1 else w1))
        with (stats w1) by (by destruct (i + b <? length ads)).
      rewrite length_app, length_zip_with. lia.
    + replace (stats (if i + b <? length ads then sleep delay w1 else w1))
        with (stats w1) by (by destruct (i + b <? length ads)).
      nia.
    + apply Forall_app. split; [done|].
      apply get_titles_Forall in Ht.
      apply Forall_forall. intros d Hd.
      apply elem_of_lookup_zip_with in Hd as (j & ad & item & -> & Had & _).
      apply merge_dicts_has_title.
      rewrite Forall_forall in Ht. apply Ht.
      by apply (list_elem_of_lookup_2 _ j).
Qed.

Lemma enrich_all_ads_invariant srv ads batch_size delay w results st :
  enrich_all_ads srv ads batch_size delay = (w, Ok (results, st)) →
  st = stats w
  ∧ length results = total_success st
  ∧ total_success st ≤ total_sent st
  ∧ Forall has_title results.
Proof.
  unfold enrich_all_ads.
  destruct (batch_size =? 0)%Z; [done|].
  destruct (batch_loop _ _ _ _ _ _ _) as [w1 [res|e]] eqn:Hloop; [|done].
  intros [= <- <- <-]. split; [done|].
  by apply (batch_loop_invariant _ _ _ _ _ _ _ _ _ Hloop).
Qed.

(** X6: when [enrich_all_ads] returns normally, the statistics it returns
    are those of the run, the number of enriched records equals
    [total_success], [total_success] does not exceed [total_sent], and
    every enriched record still has a "title" field. *)
Theorem returned_records_match_stats (srv : service) (ads : list dict)
    (batch_size : Z) (delay : Q) (w : World) (results : list dict)
    (st : EnrichmentStats) :
  enrich_all_ads srv ads batch_size delay = (w, Ok (results, st)) →
  st = stats w
  ∧ length results = total_success st
  ∧ total_success st ≤ total_sent st
  ∧ Forall has_title results.
Proof.
  unfold enrich_all_ads.
  destruct (batch_size =? 0)%Z; [done|].
  destruct (batch_loop _ _ _ _ _ _ _) as [w1 [res|e]] eqn:Hloop; [|done].
  intros [= <- <- <-]. split; [done|].
  destruct (batch_loop_invariant _ _ _ _ _ _ _ _ _ Hloop) as (Hlen & Hle & Hall);
    [done|simpl; lia|constructor|].
  by repeat split.
Qed.

Lemma returned_records_match_stats_witness :
  let ads : list dict := [{["title" := VStr "a"]}; {["title" := VStr "b"]}] in
  let srv : service :=
    λ _ _, Response 200 (JsonObject (Some [{["marka" := VStr "jcb"]}])) in
  ∃ w results st,
    enrich_all_ads srv ads 2 0 = (w, Ok (results, st))
    ∧ length results = total_success st.
Proof.
  intros ads srv.
  destruct (enrich_all_ads srv ads 2 0) as [w [[results st]|e]] eqn:Hrun;
    [|vm_compute in Hrun; discriminate Hrun].
  exists w, results, st. split; [done|].
  by destruct (returned_records_match_stats srv ads 2 0 w results st Hrun)
    as (_ & H & _).
Defined.

Lemma success_rate_bounds (s : EnrichmentStats) :
  total_success s ≤ total_sent s →
  (0 <= success_rate s)%Q ∧ (success_rate s <= 100)%Q.
Proof.
  intros Hle. unfold success_rate.
  destruct (Nat.eqb_spec (total_sent s) 0) as [Hz|Hnz]; [done|].
  set (a := inject_Z (Z.of_nat (total_success s))).
  set (b := inject_Z (Z.of_nat (total_sent s))).
  assert (Ha : (0 <= a)%Q).
  { unfold a. rewrite <- (Zle_Qle 0). lia. }
  assert (Hb : (0 < b)%Q).
  { unfold b. rewrite <- (Zlt_Qlt 0). lia. }
  assert (Hab : (a <= b)%Q).
  { unfold a, b. rewrite <- Zle_Qle. lia. }
  assert (H0 : (0 <= a / b)%Q).
  { apply Qle_shift_div_l; [done|]. by rewrite Qmult_0_l. }
  assert (H1 : (a / b <= 1)%Q).
  { apply Qle_shift_div_r; [done|]. by rewrite Qmult_1_l. }
  split.
  - apply Qmult_le_0_compat; done.
  - apply Qle_trans with (1 * 100)%Q; [by apply Qmult_le_compat_r|].
    unfold Qle. simpl. lia.
Qed.

(** X7: when [enrich_all_ads] returns normally, the success rate of the
    statistics it returns (taken as an exact ratio) lies between 0 and 100,
    and it is 0 when no title was sent. *)
Theorem success_rate_is_a_percentage (srv : service) (ads : list dict)
    (batch_size : Z) (delay : Q) (w : World) (results : list dict)
    (st : EnrichmentStats) :
  enrich_all_ads srv ads batch_size delay = (w, Ok (results, st)) →
  (0 <= success_rate st)%Q
  ∧ (success_rate st <= 100)%Q
  ∧ (total_sent st = 0 → success_rate st = 0%Q).
Proof.
  intros Hrun.
  destruct (enrich_all_ads_invariant _ _ _ _ _ _ _ Hrun) as (_ & _ & Hle & _).
  destruct (success_rate_bounds st Hle) as [H0 H100].
  repeat split; try done.
  intros Hz. unfold success_rate. by rewrite Hz.
Qed.

Lemma success_rate_is_a_percentage_witness :
  let ads : list dict := [{["title" := VStr "a"]}; {["title" := VStr "b"]}] in
  let srv : service :=
    λ _ _, Response 200 (JsonObject (Some [{["marka" := VStr "jcb"]}])) in
  ∃ w results st,
    enrich_all_ads srv ads 2 0 = (w, Ok (results, st))
    ∧ (success_rate st <= 100)%Q.
Proof.
  intros ads srv.
  destruct (enrich_all_ads srv ads 2 0) as [w [[results st]|e]] eqn:Hrun;
    [|vm_compute in Hrun; discriminate Hrun].
  exists w, results, st. split; [done|].
  by destruct (success_rate_is_a_percentage srv ads 2 0 w results st Hrun)
    as (_ & H & _).
Defined.

Lemma batch_loop_requests_bound srv ads b delay indices w results :
  ∃ new,
    requests (batch_loop srv ads b delay indices w results).1 = requests w ++ new
    ∧ length new ≤ 3 * length indices
    ∧ Forall (λ titles, length titles ≤ b) new.
Proof.
  revert w results. induction indices as [|i rest IH]; intros w results; simpl.
  - exists []. by rewrite app_nil_r.
  - destruct (get_titles (slice ads i b)) as [titles|e] eqn:Ht.
    2:{ exists []. simpl. rewrite app_nil_r. repeat split; [lia|done]. }
    pose proof (enrich_batch_accounting srv titles 3 w) as Hacc.
    destruct (enrich_batch srv titles 3 w) as [w1 r].
    destruct Hacc as (n & Hn & _ & Hreq & _). simpl in Hreq.
    assert (Hsz : Forall (λ ts : list value, length ts ≤ b) (replicate n titles)).
    { apply Forall_replicate. rewrite (get_titles_length _ _ Ht).
      apply slice_length. }
    assert (Hstop : ∃ new, requests w1 = requests w ++ new
                      ∧ length new ≤ 3 * S (length rest)
                      ∧ Forall (λ ts : list value, length ts ≤ b) new).
    { exists (replicate n titles). rewrite length_replicate.
      repeat split; [done|lia|done]. }
    destruct r as [enriched|e]; [|done].
    destruct (merge_loop _ _ results) as [results1|e]; [|done].
    destruct (IH (if i + b <? length ads then sleep delay w1 else w1) results1)
      as (new & Hnew & Hlen & Hall).
    exists (replicate n titles ++ new). rewrite Hnew.
    replace (requests (if i + b <? length ads then sleep delay w1 else w1))
      with (requests w1) by (by destruct (i + b <? length ads)).
    rewrite Hreq, <- app_assoc, length_app, length_replicate.
    repeat split; [lia|]. by apply Forall_app.
Qed.

(** X8: whatever the service answers, [enrich_all_ads] sends at most three
    requests per batch - at most [3 * ceil(n / b)] in all for a positive
    batch size [b] - none of which carries more than [b] titles; with a
    negative batch size, or with no record, it sends no request at all. *)
Theorem requests_are_bounded (srv : service) (ads : list dict) (batch_size : Z)
    (delay : Q) :
  let run := enrich_all_ads srv ads batch_size delay in
  let b := Z.to_nat batch_size in
  ((batch_size <= 0)%Z ∨ ads = [] → requests run.1 = [])
  ∧ ((0 < batch_size)%Z →
     length (requests run.1) ≤ 3 * ((length ads + b - 1) / b)
     ∧ Forall (λ titles, length titles ≤ b) (requests run.1)).
Proof.
  intros run b. subst run. unfold enrich_all_ads.
  destruct (Z.eqb_spec batch_size 0) as [Hz|Hnz].
  { split; [done|lia]. }
  fold b.
  destruct (batch_loop_requests_bound srv ads b delay
    (if (batch_size <? 0)%Z then [] else py_range (length ads) b) init_world [])
    as (new & Hreq & Hlen & Hall).
  assert (Hrun : requests
            (match batch_loop srv ads b delay
                     (if (batch_size <? 0)%Z then [] else py_range (length ads) b)
                     init_world [] with
             | (w, Ok results) => (w, Ok (results, stats w))
             | (w, Raise e) => (w, Raise e)
             end).1 = new).
  { destruct (batch_loop _ _ _ _ _ _ _) as [w1 [res|e]]; exact Hreq. }
  rewrite Hrun. split.
  - intros Hcase. apply nil_length_inv.
    destruct (Z.ltb_spec batch_size 0) as [Hneg|Hpos]; [simpl in Hlen; lia|].
    destruct Hcase as [Hle| ->]; [lia|].
    unfold py_range in Hlen. simpl in Hlen. lia.
  - intros Hpos. split; [|done].
    destruct (Z.ltb_spec batch_size 0) as [Hneg|_]; [lia|].
    rewrite py_range_spec, length_fmap, length_seq in Hlen by (unfold b; lia).
    done.
Qed.

Lemma requests_are_bounded_witness :
  let ads : list dict :=
    [{["title" := VStr "a"]}; {["title" := VStr "b"]}; {["title" := VStr "c"]}] in
  length (requests (enrich_all_ads (λ _ _, TimeoutException) ads 2 0).1) ≤ 6.
Proof.
  intros ads.
  destruct (requests_are_bounded (λ _ _, TimeoutException) ads 2 0) as [_ H].
  destruct H as [H _]; [lia|]. exact H.
Defined.

(** The run of [enrich_batch] whose first attempt succeeds. *)
Lemma enrich_batch_first_success_eq srv titles retry w :
  success titles (srv (length (requests w)) titles) = true →
  ∃ processed,
    enrich_batch srv titles (S retry) w
    = (upd_stats (add_total_success (length processed))
         (mkWorld (add_total_sent (length titles) (stats w))
                  (requests w ++ [titles]) (sleeps w)),
       Ok processed)
    ∧ length processed ≤ length titles.
Proof.
  intros Hs. unfold enrich_batch. simpl seq. simpl attempt_loop.
  unfold post. simpl.
  destruct (srv (length (requests w)) titles) as [status [|pd]| |]; try done.
  simpl in Hs. apply andb_true_iff in Hs as [-> Hlen].
  eexists. split; [done|]. by apply Nat.leb_le.
Qed.

Lemma batch_loop_success_sleeps srv ads all_titles b delay indices w results :
  get_titles ads = Ok all_titles →
  (∀ k i, indices !! k = Some i →
          success (take b (drop i all_titles))
                  (srv (length (requests w) + k) (take b (drop i all_titles))) = true) →
  sleeps (batch_loop srv ads b delay indices w results).1
  = sleeps w ++ ((λ _, delay) <$> filter (λ i, i + b < length ads) indices).
Proof.
  intros Hall. revert w results.
  induction indices as [|i rest IH]; intros w results Hsrv; simpl.
  - by rewrite app_nil_r.
  - pose proof (get_titles_slice ads all_titles i b Hall) as Ht. rewrite Ht.
    destruct (enrich_batch_first_success_eq srv (take b (drop i all_titles)) 2 w)
      as (enriched & -> & Hlen).
    { specialize (Hsrv 0 i eq_refl). by rewrite Nat.add_0_r in Hsrv. }
    unfold enumerate. rewrite merge_loop_in_range.
    2:{ apply get_titles_length in Ht. simpl. lia. }
    rewrite IH.
    + rewrite filter_cons.
      destruct (Nat.ltb_spec (i + b) (length ads)) as [Hlt|Hge].
      * rewrite decide_True by done. simpl. by rewrite <- app_assoc.
      * rewrite decide_False by lia. done.
    + intros k i' Hk.
      replace (length (requests _)) with (length (requests w) + 1).
      * replace (length (requests w) + 1 + k) with (length (requests w) + S k) by lia.
        by apply Hsrv.
      * destruct (i + b <? length ads); simpl; rewrite length_app; simpl; lia.
Qed.

Lemma filter_between_batches n b c :
  0 < b → n ≤ c * b → c * b < n + b →
  filter (λ i, i + b < n) ((λ k, k * b) <$> seq 0 c)
  = (λ k, k * b) <$> seq 0 (c - 1).
Proof.
  intros Hb Hlo Hhi.
  destruct c as [|c]; [done|].
  replace (S c - 1) with c by lia.
  rewrite seq_S, fmap_app, filter_app. simpl.
  rewrite filter_cons, decide_False by nia. rewrite app_nil_r.
  assert (Hall : ∀ m, m ≤ c →
            filter (λ i, i + b < n) ((λ k, k * b) <$> seq 0 m)
            = (λ k, k * b) <$> seq 0 m).
  { induction m as [|m IH]; intros Hm; [done|].
    rewrite seq_S, fmap_app, filter_app, IH by lia. simpl.
    rewrite filter_cons, decide_True by nia. done. }
  by apply Hall.
Qed.

(** X9: when the request for each batch is answered at the first attempt
    with a well-formed success, [enrich_all_ads] pauses for
    [rate_limit_delay] after every batch but the last and at no other
    time: [ceil(n / b) - 1] pauses in all. *)
Theorem pauses_between_batches (srv : service) (ads : list dict) (b : nat)
    (delay : Q) (all_titles : list value) :
  0 < b →
  get_titles ads = Ok all_titles →
  (∀ k, k < (length ads + b - 1) / b →
        success (chunk b all_titles k) (srv k (chunk b all_titles k)) = true) →
  sleeps (enrich_all_ads srv ads (Z.of_nat b) delay).1
  = replicate ((length ads + b - 1) / b - 1) delay.
Proof.
  intros Hb Hall Hsrv. unfold enrich_all_ads.
  destruct (Z.eqb_spec (Z.of_nat b) 0); [lia|].
  destruct (Z.ltb_spec (Z.of_nat b) 0); [lia|].
  rewrite Nat2Z.id, py_range_spec by done.
  set (c := (length ads + b - 1) / b) in *.
  pose proof (batch_loop_success_sleeps srv ads all_titles b delay
                ((λ k, k * b) <$> seq 0 c) init_world [] Hall) as Hsl.
  destruct (batch_loop _ _ _ _ _ _ _) as [w1 [res|e]]; simpl in *.
  all: rewrite Hsl.
  all: try (destruct (ceil_div_bounds (length ads) b Hb) as [Hlo Hhi];
            fold c in Hlo, Hhi;
            rewrite filter_between_batches by done;
            rewrite <- list_fmap_compose;
            generalize (c - 1); intros m;
            generalize 0; induction m as [|m IHm]; intros s0; simpl;
            [done | by rewrite IHm]).
  all: intros k i Hk; rewrite list_lookup_fmap in Hk;
       destruct (seq 0 c !! k) as [k'|] eqn:Hseq; [|done];
       apply lookup_seq in Hseq as [-> Hlt]; simpl in Hk; injection Hk as <-;
       simpl; by apply Hsrv.
Qed.

Lemma pauses_between_batches_witness :
  let ads : list dict :=
    [{["title" := VStr "a"]}; {["title" := VStr "b"]}; {["title" := VStr "c"]}] in
  let srv : service := λ _ titles, Response 200 (JsonObject (Some [])) in
  sleeps (enrich_all_ads srv ads 2 (1 # 2)).1 = [(1 # 2)%Q].
Proof.
  intros ads srv.
  exact (pauses_between_batches srv ads 2 (1 # 2) [VStr "a"; VStr "b"; VStr "c"]
           ltac:(lia) eq_refl (λ k _, eq_refl)).
Defined.

End EnricherProperties.

(** * Properties of the coverage analyzer *)

Section AnalyzerProperties.
Import Analyzer.

Lemma elem_of_drop_duplicates_from {A} `{EqDecision A} (seen l : list A) x :
  x ∈ drop_duplicates_from seen l ↔ x ∈ l ∧ x ∉ seen.
Proof.
  revert seen. induction l as [|y l IH]; intros seen; simpl.
  - split; [by intros ?%elem_of_nil|by intros [?%elem_of_nil _]].
  - destruct (decide (y ∈ seen)) as [Hin|Hnin].
    + rewrite IH, elem_of_cons. split.
      * intros [Hx Hs]. split; [by right|done].
      * intros [[->|Hx] Hs]; done.
    + rewrite !elem_of_cons, IH, elem_of_cons. split.
      * intros [->|[Hx Hs]]; [by auto|]. split; [by auto|].
        intros Hc. apply Hs. by right.
      * intros [[->|Hx] Hs]; [by left|].
        destruct (decide (x = y)) as [->|Hne]; [by left|].
        right. split; [done|]. by intros [?|?].
Qed.

Lemma NoDup_drop_duplicates_from {A} `{EqDecision A} (seen l : list A) :
  NoDup (drop_duplicates_from seen l).
Proof.
  revert seen. induction l as [|y l IH]; intros seen; simpl.
  - constructor.
  - destruct (decide (y ∈ seen)); [apply IH|].
    apply NoDup_cons. split; [|apply IH].
    rewrite elem_of_drop_duplicates_from, elem_of_cons.
    intros [_ Hy]. apply Hy. by left.
Qed.

Lemma elem_of_drop_duplicates {A} `{EqDecision A} (l : list A) x :
  x ∈ drop_duplicates l ↔ x ∈ l.
Proof.
  unfold drop_duplicates. rewrite elem_of_drop_duplicates_from.
  split; [by intros [? _]|]. intros Hx. split; [done|]. by intros ?%elem_of_nil.
Qed.

Lemma NoDup_drop_duplicates {A} `{EqDecision A} (l : list A) :
  NoDup (drop_duplicates l).
Proof. apply NoDup_drop_duplicates_from. Qed.

(** Dropping duplicates leaves one row per distinct key. *)
Lemma length_drop_duplicates (l : list key3) :
  length (drop_duplicates l) = size (list_to_set l : gset key3).
Proof.
  rewrite <- (size_list_to_set (C:=gset key3) (drop_duplicates l))
    by apply NoDup_drop_duplicates.
  f_equal. apply set_eq. intros x.
  by rewrite !elem_of_list_to_set, elem_of_drop_duplicates.
Qed.

(** In a frame without duplicates a key matches at most one row. *)
Lemma filter_eq_NoDup (k : key3) (r : list key3) :
  NoDup r →
  filter (λ k', k' = k) r = if decide (k ∈ r) then [k] else [].
Proof.
  induction 1 as [|x r Hx Hnd IH]; [done|].
  rewrite filter_cons. destruct (decide (x = k)) as [->|Hne].
  - rewrite IH. rewrite decide_False by done.
    rewrite decide_True by (by left). done.
  - rewrite IH. destruct (decide (k ∈ r)) as [Hin|Hnin].
    + rewrite decide_True by (by right). done.
    + rewrite decide_False; [done|].
      intros [->|?]%elem_of_cons; done.
Qed.

Lemma length_merge_inner (l r : list key3) :
  NoDup r →
  length (merge_inner l r) = length (filter (λ k, k ∈ r) l).
Proof.
  intros Hr. unfold merge_inner.
  induction l as [|k l IH]; [done|].
  simpl. rewrite length_app, IH, filter_cons, length_fmap, filter_eq_NoDup by done.
  by destruct (decide (k ∈ r)).
Qed.

Lemma length_filter_elem_of (l r : list key3) :
  NoDup l →
  length (filter (λ k, k ∈ r) l)
  = size ((list_to_set l : gset key3) ∩ list_to_set r).
Proof.
  intros Hl.
  rewrite <- (size_list_to_set (C:=gset key3) (filter (λ k, k ∈ r) l))
    by (by apply NoDup_filter).
  f_equal. apply set_eq. intros x.
  rewrite elem_of_intersection, !elem_of_list_to_set, list_elem_of_filter.
  by split; intros [? ?].
Qed.

Lemma list_to_set_drop_duplicates (l : list key3) :
  (list_to_set (drop_duplicates l) : gset key3) = list_to_set l.
Proof.
  apply set_eq. intros x.
  by rewrite !elem_of_list_to_set, elem_of_drop_duplicates.
Qed.

Lemma generate_coverage_report_spec enriched_df output_df :
  generate_coverage_report enriched_df output_df
  = Ok (coverage_spec (keys output_df) (keys enriched_df)).
Proof.
  unfold generate_coverage_report, coverage_spec, keys.
  rewrite length_merge_inner by apply NoDup_drop_duplicates.
  rewrite length_filter_elem_of by apply NoDup_drop_duplicates.
  rewrite !length_drop_duplicates, !list_to_set_drop_duplicates.
  set (total := size (list_to_set (group_cols_of output_df) : gset key3)).
  unfold py_truediv.
  destruct (Nat.ltb_spec 0 total) as [Hpos|Hzero].
  - destruct (Nat.eqb_spec total 0) as [?|_]; [lia|].
    rewrite decide_False by lia. done.
  - rewrite decide_True by lia. done.
Qed.

(** ** C6 *)

(** C6: for every pair of tables, [generate_coverage_report] returns
    normally (no division fault) the report the specification describes
    over the sets of distinct (group0, group1, group2) keys of the two
    tables - so repeated rows count once -: the number of distinct catalog
    keys, the number of those present among the enriched keys, their
    difference, and the percentage, which is 0 when the catalog has no key. *)
Theorem coverage_report_counts (enriched_df output_df : Table) :
  generate_coverage_report enriched_df output_df
  = Ok (coverage_spec (keys output_df) (keys enriched_df))
  ∧ (size (keys output_df) = 0 →
     coverage_percentage (coverage_spec (keys output_df) (keys enriched_df)) = 0%Q)
  ∧ missing_combinations (coverage_spec (keys output_df) (keys enriched_df))
    = Z.of_nat (size (keys output_df ∖ keys enriched_df)).
Proof.
  split; [|split].
  - apply generate_coverage_report_spec.
  - intros Hz. unfold coverage_spec. simpl. by rewrite decide_True.
  - unfold coverage_spec. simpl.
    pose proof (size_difference_alt (C:=gset key3)
                  (keys output_df) (keys enriched_df)) as Hdiff.
    pose proof (subseteq_size (C:=gset key3)
                  (keys output_df ∩ keys enriched_df) (keys output_df)
                  ltac:(by intros x [? _]%elem_of_intersection)) as Hle.
    lia.
Qed.

(** ** The steps of [find_missing_coverage] *)

(** The left-only rows of the indicator merge are the left keys without a
    match. *)
Lemma fst_left_only (target existing : list key3) :
  (filter (λ m, m.2 = left_only) (merge_left_indicator target existing)).*1
  = filter (λ k, k ∉ existing) target.
Proof.
  induction target as [|k target IH]; [done|].
  change (merge_left_indicator (k :: target) existing)
    with (match filter (λ k', k' = k) existing with
          | [] => [(k, left_only)]
          | ms => (λ _, (k, both)) <$> ms
          end ++ merge_left_indicator target existing).
  rewrite filter_app, fmap_app, IH, (filter_cons _ k).
  destruct (filter (λ k', k' = k) existing) as [|m ms] eqn:Hf.
  - rewrite decide_True; [done|].
    intros Hin. by apply (filter_nil_not_elem_of _ _ k Hf).
  - rewrite decide_False.
    + clear Hf. by induction (m :: ms) as [|? ? IH'].
    + intros Hnin. assert (Hm : m ∈ filter (λ k', k' = k) existing)
        by (rewrite Hf; by left).
      apply list_elem_of_filter in Hm as [-> Hm]. done.
Qed.

Lemma insert_desc_perm {A} (f : A → nat) x l : insert_desc f x l ≡ₚ x :: l.
Proof.
  induction l as [|y l IH]; simpl; [done|].
  destruct (f x <? f y); [|done].
  by rewrite IH, Permutation_swap.
Qed.

Lemma sort_desc_perm {A} (f : A → nat) l : sort_desc f l ≡ₚ l.
Proof.
  induction l as [|x l IH]; simpl; [done|].
  by rewrite insert_desc_perm, IH.
Qed.

(** [value_counts] has exactly one row for a key of the frame. *)
Lemma value_counts_unique (all_keys : list key3) k :
  k ∈ all_keys →
  ∃ f, filter (λ f : key3 * nat, f.1 = k) (value_counts all_keys) = [f].
Proof.
  intros Hk. unfold value_counts.
  exists (k, count_rows k all_keys).
  apply Permutation_singleton_r.
  rewrite sort_desc_perm.
  apply elem_of_drop_duplicates in Hk.
  pose proof (NoDup_drop_duplicates all_keys) as Hnd.
  induction Hnd as [|x l Hx Hnd IH]; [by apply elem_of_nil in Hk|].
  rewrite fmap_cons, filter_cons. simpl.
  assert (Hrest : x ≠ k → k ∈ l →
            filter (λ f : key3 * nat, f.1 = k)
                   ((λ k0, (k0, count_rows k0 all_keys)) <$> l)
            ≡ₚ [(k, count_rows k all_keys)]) by (intros _; apply IH).
  destruct (decide (x = k)) as [->|Hne].
  - replace (filter _ _) with (@nil (key3 * nat)); [done|].
    symmetry. clear IH Hrest Hk Hnd. induction l as [|y l IH]; [done|].
    rewrite fmap_cons, filter_cons. simpl.
    rewrite decide_False by (intros ->; apply Hx; by left).
    apply IH. intros Hin. apply Hx. by right.
  - apply Hrest; [done|]. by apply elem_of_cons in Hk as [->|Hk].
Qed.

Lemma merge_left_freq_fst (result_df : list MissingRow) (freq : list (key3 * nat)) :
  (∀ r, r ∈ result_df → ∃ f, filter (λ f, f.1 = m_key r) freq = [f]) →
  (merge_left_freq result_df freq).*1 = result_df.
Proof.
  induction result_df as [|r result_df IH]; intros Hone; [done|].
  change (merge_left_freq (r :: result_df) freq)
    with (match filter (λ f, f.1 = m_key r) freq with
          | [] => [(r, 0)]
          | fs => (λ f, (r, f.2)) <$> fs
          end ++ merge_left_freq result_df freq).
  destruct (Hone r ltac:(by left)) as [f ->].
  rewrite fmap_app, IH by (intros r' Hr'; apply Hone; by right). done.
Qed.

(** The rows of the catalog merge carry the keys of the missing rows, and
    every missing row gives at least one of them. *)
Lemma elem_of_merge_left_catalog missing output_rows (t : key3 * cell * cell) :
  t ∈ merge_left_catalog missing output_rows →
  ∃ m, m ∈ missing ∧ t.1.1 = m.1
       ∧ ((filter (λ r, key_of r = m.1) output_rows = [] ∧ t = (m.1, None, None))
          ∨ ∃ r, r ∈ output_rows ∧ key_of r = m.1 ∧ t = (m.1, marka r, model r)).
Proof.
  unfold merge_left_catalog. intros Ht.
  apply list_elem_of_In, in_flat_map in Ht as (m & Hm & Ht).
  apply list_elem_of_In in Hm, Ht. exists m. split; [done|].
  destruct (filter (λ r, key_of r = m.1) output_rows) as [|r0 rs] eqn:Hf.
  - apply list_elem_of_singleton in Ht as ->. split; [done|]. by left.
  - apply list_elem_of_fmap in Ht as (r & -> & Hr). split; [done|]. right.
    rewrite <- Hf in Hr. apply list_elem_of_filter in Hr as [Hk Hr]. by exists r.
Qed.

Lemma merge_left_catalog_covers missing output_rows (m : key3 * indicator) :
  m ∈ missing →
  ∃ t, t ∈ merge_left_catalog missing output_rows ∧ t.1.1 = m.1.
Proof.
  intros Hm. unfold merge_left_catalog.
  destruct (filter (λ r, key_of r = m.1) output_rows) as [|r0 rs] eqn:Hf.
  - exists (m.1, None, None). split; [|done].
    apply list_elem_of_In, in_flat_map. exists m.
    split; [by apply list_elem_of_In|]. rewrite Hf. by left.
  - exists (m.1, marka r0, model r0). split; [|done].
    apply list_elem_of_In, in_flat_map. exists m.
    split; [by apply list_elem_of_In|]. rewrite Hf. by left.
Qed.

Lemma select_available_key hm hd (t : key3 * cell * cell) :
  (select_available hm hd t).1.1 = t.1.1.
Proof. done. Qed.

(** The rows [find_missing_coverage] returns are, up to their order, the
    distinct rows of the catalog merge restricted to the available columns;
    a result with rows has the six columns and is written to the path. *)
Lemma find_missing_coverage_rows enriched_df output_df path fs :
  let existing := drop_duplicates (group_cols_of enriched_df) in
  let target := drop_duplicates (group_cols_of output_df) in
  let missing := filter (λ m, m.2 = left_only) (merge_left_indicator target existing) in
  let distinct :=
    drop_duplicates
      (select_available (has_marka output_df) (has_model output_df)
         <$> merge_left_catalog missing (rows output_df)) in
  let out := find_missing_coverage enriched_df output_df path fs in
  length (frows out.1) = length distinct
  ∧ (missing ≠ [] →
     columns out.1 = ["group0"; "group1"; "group2"; "marka"; "model"; "reason"]
     ∧ out.2 = <[path := out.1]> fs).
Proof.
  intros existing target missing distinct out. subst out.
  unfold find_missing_coverage. cbv zeta.
  fold existing target. fold missing. fold distinct.
  destruct (Nat.eqb_spec (length missing) 0) as [Hz|Hnz].
  - apply nil_length_inv in Hz. split; [|done].
    subst distinct. by rewrite Hz.
  - simpl. split; [|done].
    rewrite !length_fmap, sort_desc_perm.
    rewrite <- (length_fmap fst), merge_left_freq_fst, length_fmap; [done|].
    intros r Hr. apply value_counts_unique.
    apply list_elem_of_fmap in Hr as (d & -> & Hd). simpl.
    subst distinct. rewrite elem_of_drop_duplicates in Hd.
    apply list_elem_of_fmap in Hd as (t & -> & Ht).
    apply elem_of_merge_left_catalog in Ht as (m & Hm & Hk & _).
    rewrite select_available_key, Hk.
    assert (Hin : m.1 ∈ missing.*1) by (by apply list_elem_of_fmap_2).
    subst missing. rewrite fst_left_only in Hin.
    apply list_elem_of_filter in Hin as [_ Hin].
    subst target. by rewrite elem_of_drop_duplicates in Hin.
Qed.

(** There is at least one distinct row per missing key. *)
Lemma missing_keys_le_distinct enriched_df output_df :
  let existing := drop_duplicates (group_cols_of enriched_df) in
  let target := drop_duplicates (group_cols_of output_df) in
  let missing := filter (λ m, m.2 = left_only) (merge_left_indicator target existing) in
  let distinct :=
    drop_duplicates
      (select_available (has_marka output_df) (has_model output_df)
         <$> merge_left_catalog missing (rows output_df)) in
  length (filter (λ k, k ∉ existing) target) ≤ length distinct.
Proof.
  intros existing target missing distinct.
  rewrite <- (length_fmap (λ d : key3 * option cell * option cell, d.1.1) distinct).
  apply submseteq_length, NoDup_submseteq.
  - apply NoDup_filter, NoDup_drop_duplicates.
  - intros k Hk. rewrite <- fst_left_only in Hk. fold missing in Hk.
    apply list_elem_of_fmap in Hk as (m & -> & Hm).
    destruct (merge_left_catalog_covers missing (rows output_df) m Hm) as (t & Ht & Hkey).
    apply list_elem_of_fmap.
    exists (select_available (has_marka output_df) (has_model output_df) t).
    split; [by rewrite select_available_key|].
    subst distinct. apply elem_of_drop_duplicates. by apply list_elem_of_fmap_2.
Qed.

(** With a single combination of marka and model per missing key, there is
    exactly one distinct row per missing key. *)
Lemma missing_keys_eq_distinct enriched_df output_df :
  single_info enriched_df output_df →
  let existing := drop_duplicates (group_cols_of enriched_df) in
  let target := drop_duplicates (group_cols_of output_df) in
  let missing := filter (λ m, m.2 = left_only) (merge_left_indicator target existing) in
  let distinct :=
    drop_duplicates
      (select_available (has_marka output_df) (has_model output_df)
         <$> merge_left_catalog missing (rows output_df)) in
  length distinct = length (filter (λ k, k ∉ existing) target).
Proof.
  intros Hsingle existing target missing distinct.
  rewrite <- (length_fmap (λ d : key3 * option cell * option cell, d.1.1) distinct).
  assert (Hsrc : ∀ d, d ∈ distinct →
            d.1.1 ∈ filter (λ k, k ∉ existing) target
            ∧ ((filter (λ r, key_of r = d.1.1) (rows output_df) = []
                ∧ d = select_available (has_marka output_df) (has_model output_df)
                        (d.1.1, None, None))
               ∨ ∃ r, r ∈ rows output_df ∧ key_of r = d.1.1
                      ∧ d = select_available (has_marka output_df) (has_model output_df)
                              (d.1.1, marka r, model r))).
  { intros d Hd. subst distinct. rewrite elem_of_drop_duplicates in Hd.
    apply list_elem_of_fmap in Hd as (t & -> & Ht).
    apply elem_of_merge_left_catalog in Ht as (m & Hm & Hk & Hcase).
    rewrite select_available_key, Hk. split.
    - rewrite <- fst_left_only. fold missing. by apply list_elem_of_fmap_2.
    - destruct Hcase as [[Hf ->]|(r & Hr & Hkr & ->)]; [by left|].
      right. by exists r. }
  apply Permutation_length, NoDup_Permutation.
  - apply NoDup_fmap_2_strong; [|apply NoDup_drop_duplicates].
    intros d1 d2 Hd1 Hd2 Hkey.
    destruct (Hsrc d1 Hd1) as [Hmiss1 Hc1]. destruct (Hsrc d2 Hd2) as [_ Hc2].
    simpl in Hkey. rewrite <- Hkey in Hc2.
    apply list_elem_of_filter in Hmiss1 as [Hne _].
    assert (Hnk : d1.1.1 ∉ keys enriched_df).
    { unfold keys. rewrite elem_of_list_to_set.
      intros Hin. apply Hne. by apply elem_of_drop_duplicates. }
    destruct Hc1 as [[Hf1 ->]|(r1 & Hr1 & Hk1 & ->)];
      destruct Hc2 as [[Hf2 ->]|(r2 & Hr2 & Hk2 & ->)].
    + done.
    + exfalso. apply (filter_nil_not_elem_of _ _ r2 Hf1); done.
    + exfalso. apply (filter_nil_not_elem_of _ _ r1 Hf2); done.
    + simpl in *.
      pose proof (Hsingle r1 r2 Hr1 Hr2 ltac:(congruence)
                    ltac:(by rewrite Hk1)) as Hinfo.
      unfold info_of in Hinfo. unfold select_available. simpl.
      injection Hinfo as Hm Hd. by rewrite Hm, Hd.
  - apply NoDup_filter, NoDup_drop_duplicates.
  - intros k. split.
    + intros (d & -> & Hd)%list_elem_of_fmap. by apply Hsrc.
    + intros Hk. rewrite <- fst_left_only in Hk. fold missing in Hk.
      apply list_elem_of_fmap in Hk as (m & -> & Hm).
      destruct (merge_left_catalog_covers missing (rows output_df) m Hm)
        as (t & Ht & Hkey).
      apply list_elem_of_fmap.
      exists (select_available (has_marka output_df) (has_model output_df) t).
      split; [by rewrite select_available_key|].
      subst distinct. apply elem_of_drop_duplicates. by apply list_elem_of_fmap_2.
Qed.

(** The missing keys and the covered keys split the distinct catalog keys. *)
Lemma missing_plus_covered enriched_df output_df :
  let existing := drop_duplicates (group_cols_of enriched_df) in
  let target := drop_duplicates (group_cols_of output_df) in
  length (filter (λ k, k ∉ existing) target)
  + size (keys output_df ∩ keys enriched_df)
  = size (keys output_df).
Proof.
  intros existing target. unfold keys.
  rewrite <- (list_to_set_drop_duplicates (group_cols_of output_df)).
  rewrite <- (list_to_set_drop_duplicates (group_cols_of enriched_df)).
  fold existing target.
  rewrite <- length_filter_elem_of by apply NoDup_drop_duplicates.
  rewrite (size_list_to_set (C:=gset key3)) by apply NoDup_drop_duplicates.
  rewrite <- (filter_app_complement (λ k, k ∈ existing) target) at 3.
  rewrite length_app. lia.
Qed.

Lemma missing_nonempty enriched_df output_df :
  ¬ keys output_df ⊆ keys enriched_df →
  filter (λ k, k ∉ drop_duplicates (group_cols_of enriched_df))
         (drop_duplicates (group_cols_of output_df)) ≠ [].
Proof.
  intros Hnot Hnil. apply Hnot. intros k Hk. unfold keys in *.
  rewrite elem_of_list_to_set in Hk. rewrite elem_of_list_to_set.
  destruct (decide (k ∈ drop_duplicates (group_cols_of enriched_df))) as [Hin|Hnin].
  - by rewrite elem_of_drop_duplicates in Hin.
  - exfalso. apply (filter_nil_not_elem_of _ _ k Hnil Hnin).
    by rewrite elem_of_drop_duplicates.
Qed.

Lemma missing_empty enriched_df output_df :
  keys output_df ⊆ keys enriched_df →
  filter (λ k, k ∉ drop_duplicates (group_cols_of enriched_df))
         (drop_duplicates (group_cols_of output_df)) = [].
Proof.
  intros Hsub.
  induction (drop_duplicates (group_cols_of output_df)) as [|k l IH] eqn:Hl in
    Hsub |- *; [done|].
  assert (Hall : ∀ k', k' ∈ k :: l → k' ∈ drop_duplicates (group_cols_of enriched_df)).
  { intros k' Hk'. rewrite elem_of_drop_duplicates. rewrite <- Hl in Hk'.
    rewrite elem_of_drop_duplicates in Hk'.
    specialize (Hsub k'). unfold keys in Hsub.
    rewrite !elem_of_list_to_set in Hsub. by apply Hsub. }
  clear IH Hl. induction l as [|k2 l IH] in k, Hall |- *.
  - rewrite filter_cons, decide_False; [done|].
    intros Hn. apply Hn, Hall. by left.
  - rewrite filter_cons, decide_False.
    + apply IH. intros k' Hk'. apply Hall. by right.
    + intros Hn. apply Hn, Hall. by left.
Qed.

(** ** C7 *)

(** C7 as stated fails: on a catalog in which the missing key (d, e, f)
    occurs with two different models, [find_missing_coverage] returns two
    rows for that key, so its row count plus the covered count is 3 while
    the total is 2. *)
Lemma rows_plus_covered_exceeds_total :
  ¬ (∀ (enriched_df output_df : Table) (path : string) (fs : gmap string Frame)
       (rep : Report),
       generate_coverage_report enriched_df output_df = Ok rep →
       length (frows (find_missing_coverage enriched_df output_df path fs).1)
       + covered_combinations rep
       = total_combinations rep).
Proof.
  intros H.
  pose (row := λ a b c m d, mkRow (Some a) (Some b) (Some c) (Some m) (Some d)).
  specialize (H (mkTable true true [row "a" "b" "c" "jcb" "JS 220"])
                (mkTable true true
                   [row "a" "b" "c" "jcb" "JS 220"; row "d" "e" "f" "cat" "312";
                    row "d" "e" "f" "cat" "320"])
                "missing.csv" ∅ (mkReport 2 1 1 50%Q)
                ltac:(vm_compute; reflexivity)).
  vm_compute in H. discriminate H.
Qed.

(** C7, amended: for every pair of tables, the number of rows returned by
    [find_missing_coverage] plus the covered count of the report is at least
    the report's total, and it equals the total whenever each missing catalog
    key comes with a single combination of the available marka and model
    fields (in particular when the catalog has neither column). *)
Theorem rows_plus_covered_vs_total (enriched_df output_df : Table)
    (path : string) (fs : gmap string Frame) :
  let found :=
    length (frows (find_missing_coverage enriched_df output_df path fs).1) in
  ∃ rep,
    generate_coverage_report enriched_df output_df = Ok rep
    ∧ total_combinations rep ≤ found + covered_combinations rep
    ∧ (single_info enriched_df output_df →
       found + covered_combinations rep = total_combinations rep).
Proof.
  intros found. exists (coverage_spec (keys output_df) (keys enriched_df)).
  split; [apply generate_coverage_report_spec|].
  destruct (find_missing_coverage_rows enriched_df output_df path fs) as [Hlen _].
  fold found in Hlen.
  pose proof (missing_plus_covered enriched_df output_df) as Hsplit.
  pose proof (missing_keys_le_distinct enriched_df output_df) as Hle.
  simpl in *. split; [lia|].
  intros Hsingle.
  pose proof (missing_keys_eq_distinct enriched_df output_df Hsingle) as Heq.
  simpl in Heq. lia.
Qed.

Lemma rows_plus_covered_vs_total_witness :
  let row := λ a b c, mkRow (Some a) (Some b) (Some c) None None in
  let enriched_df := mkTable false false [row "a" "b" "c"] in
  let output_df :=
    mkTable false false [row "a" "b" "c"; row "d" "e" "f"; row "d" "e" "f"] in
  ∃ rep,
    generate_coverage_report enriched_df output_df = Ok rep
    ∧ length (frows (find_missing_coverage enriched_df output_df "missing.csv" ∅).1)
      + covered_combinations rep
      = total_combinations rep.
Proof.
  intros row enriched_df output_df.
  destruct (rows_plus_covered_vs_total enriched_df output_df "missing.csv" ∅)
    as (rep & Hrep & _ & Heq).
  exists rep. split; [exact Hrep|]. apply Heq.
  intros r1 r2 _ _ _ _. reflexivity.
Defined.

(** ** C8 *)

(** C8 as stated fails: on two identical tables the result has the columns
    group0, group1, group2, reason only, and nothing is written. *)
Lemma full_coverage_frame_not_full :
  ¬ (∀ (t : Table) (path : string) (fs : gmap string Frame),
       let out := find_missing_coverage t t path fs in
       frows out.1 = []
       ∧ columns out.1 = ["group0"; "group1"; "group2"; "marka"; "model"; "reason"]
       ∧ out.2 !! path = Some out.1).
Proof.
  intros H.
  specialize (H (mkTable true true
                   [mkRow (Some "a") (Some "b") (Some "c") (Some "jcb") (Some "JS 220")])
                "missing.csv" ∅).
  destruct H as (_ & Hcols & _). vm_compute in Hcols. discriminate Hcols.
Qed.

(** C8, amended: when every catalog key is among the enriched keys (in
    particular on two identical tables), [find_missing_coverage] returns an
    empty frame whose columns are group0, group1, group2, reason; otherwise
    it returns a frame with rows and the columns group0, group1, group2,
    marka, model, reason, and it has written that frame to the output path
    in addition to returning it. *)
Theorem missing_frame_columns (enriched_df output_df : Table)
    (path : string) (fs : gmap string Frame) :
  let out := find_missing_coverage enriched_df output_df path fs in
  (keys output_df ⊆ keys enriched_df →
   out.1 = mkFrame ["group0"; "group1"; "group2"; "reason"] [])
  ∧ (¬ keys output_df ⊆ keys enriched_df →
     columns out.1 = ["group0"; "group1"; "group2"; "marka"; "model"; "reason"]
     ∧ frows out.1 ≠ []
     ∧ out.2 = <[path := out.1]> fs).
Proof.
  intros out. split.
  - intros Hsub. subst out. unfold find_missing_coverage. cbv zeta.
    pose proof (missing_empty enriched_df output_df Hsub) as Hnil.
    rewrite <- fst_left_only in Hnil. apply fmap_nil_inv in Hnil.
    by rewrite Hnil.
  - intros Hnot.
    pose proof (missing_nonempty enriched_df output_df Hnot) as Hne.
    destruct (find_missing_coverage_rows enriched_df output_df path fs)
      as [Hlen Hcols].
    fold out in Hlen, Hcols. simpl in Hlen, Hcols.
    destruct Hcols as [Hc Hfs].
    { intros Hnil. apply Hne. by rewrite <- fst_left_only, Hnil. }
    split; [done|]. split; [|done].
    pose proof (missing_keys_le_distinct enriched_df output_df) as Hle.
    simpl in Hle. intros Hrows. rewrite Hrows in Hlen. simpl in Hlen.
    destruct (filter _ (drop_duplicates (group_cols_of output_df))); [done|].
    simpl in Hle. lia.
Qed.

Lemma missing_frame_columns_witness :
  let row := λ a b c m d, mkRow (Some a) (Some b) (Some c) (Some m) (Some d) in
  let t := mkTable true true [row "a" "b" "c" "jcb" "JS 220"] in
  let u := mkTable true true [row "d" "e" "f" "cat" "312"] in
  (find_missing_coverage t t "missing.csv" ∅).1
  = mkFrame ["group0"; "group1"; "group2"; "reason"] []
  ∧ (find_missing_coverage t u "missing.csv" ∅).2 !! "missing.csv"
    = Some (find_missing_coverage t u "missing.csv" ∅).1.
Proof.
  intros row t u. split.
  - destruct (missing_frame_columns t t "missing.csv" ∅) as [H _].
    apply H. intros k Hk. exact Hk.
  - destruct (missing_frame_columns t u "missing.csv" ∅) as [_ H].
    destruct H as (_ & _ & ->).
    + intros Hsub. specialize (Hsub ("d", "e", "f")).
      vm_compute in Hsub. specialize (Hsub eq_refl). discriminate Hsub.
    + apply lookup_insert_eq.
Defined.

(** ** Further properties of [find_missing_coverage] *)

Lemma find_missing_coverage_frows enriched_df output_df path fs :
  frows (find_missing_coverage enriched_df output_df path fs).1
  = (sort_desc snd
       (merge_left_freq (missing_row <$> distinct_rows enriched_df output_df)
                        (value_counts (group_cols_of output_df)))).*1.
Proof.
  unfold find_missing_coverage, distinct_rows. cbv zeta.
  destruct (length _ =? 0) eqn:Hz; [|done].
  apply Nat.eqb_eq, nil_length_inv in Hz. by rewrite Hz.
Qed.

Lemma distinct_rows_key enriched_df output_df d :
  d ∈ distinct_rows enriched_df output_df →
  d.1.1 ∈ group_cols_of output_df ∧ d.1.1 ∉ group_cols_of enriched_df.
Proof.
  unfold distinct_rows. rewrite elem_of_drop_duplicates.
  intros (t & -> & Ht)%list_elem_of_fmap.
  apply elem_of_merge_left_catalog in Ht as (m & Hm & Hk & _).
  rewrite select_available_key, Hk.
  assert (Hin : m.1 ∈ (filter (λ m, m.2 = left_only)
                         (merge_left_indicator
                            (drop_duplicates (group_cols_of output_df))
                            (drop_duplicates (group_cols_of enriched_df)))).*1)
    by (by apply list_elem_of_fmap_2).
  rewrite fst_left_only in Hin.
  apply list_elem_of_filter in Hin as [Hnot Hin].
  rewrite elem_of_drop_duplicates in Hin, Hnot. done.
Qed.

Lemma distinct_rows_cover enriched_df output_df k :
  k ∈ group_cols_of output_df → k ∉ group_cols_of enriched_df →
  ∃ d, d ∈ distinct_rows enriched_df output_df ∧ d.1.1 = k.
Proof.
  intros Hin Hnot.
  assert (Hk : k ∈ (filter (λ m, m.2 = left_only)
                      (merge_left_indicator
                         (drop_duplicates (group_cols_of output_df))
                         (drop_duplicates (group_cols_of enriched_df)))).*1).
  { rewrite fst_left_only. apply list_elem_of_filter.
    by rewrite !elem_of_drop_duplicates. }
  apply list_elem_of_fmap in Hk as (m & -> & Hm).
  destruct (merge_left_catalog_covers _ (rows output_df) m Hm) as (t & Ht & Hkey).
  exists (select_available (has_marka output_df) (has_model output_df) t).
  split; [|by rewrite select_available_key].
  unfold distinct_rows. rewrite elem_of_drop_duplicates.
  by apply list_elem_of_fmap_2.
Qed.

(** [value_counts] gives a key of the frame its number of rows. *)
Lemma value_counts_count (all_keys : list key3) k :
  k ∈ all_keys →
  filter (λ f : key3 * nat, f.1 = k) (value_counts all_keys)
  = [(k, count_rows k all_keys)].
Proof.
  intros Hk. destruct (value_counts_unique all_keys k Hk) as [f Hf].
  rewrite Hf. f_equal.
  assert (Hin : f ∈ filter (λ f : key3 * nat, f.1 = k) (value_counts all_keys))
    by (rewrite Hf; by left).
  apply list_elem_of_filter in Hin as [Hfk Hin].
  unfold value_counts in Hin. rewrite sort_desc_perm in Hin.
  apply list_elem_of_fmap in Hin as (k0 & -> & _). simpl in Hfk. by subst.
Qed.

Lemma merge_left_freq_counts enriched_df output_df :
  merge_left_freq (missing_row <$> distinct_rows enriched_df output_df)
                  (value_counts (group_cols_of output_df))
  = (λ r, (r, catalog_frequency output_df r))
      <$> (missing_row <$> distinct_rows enriched_df output_df).
Proof.
  assert (Hkeys : ∀ r, r ∈ missing_row <$> distinct_rows enriched_df output_df →
            m_key r ∈ group_cols_of output_df).
  { intros r (d & -> & Hd)%list_elem_of_fmap. simpl.
    by apply distinct_rows_key in Hd as [? _]. }
  induction (missing_row <$> distinct_rows enriched_df output_df) as [|r l IH];
    [done|].
  change (merge_left_freq (r :: l) (value_counts (group_cols_of output_df)))
    with (match filter (λ f, f.1 = m_key r) (value_counts (group_cols_of output_df)) with
          | [] => [(r, 0)]
          | fs => (λ f, (r, f.2)) <$> fs
          end ++ merge_left_freq l (value_counts (group_cols_of output_df))).
  rewrite value_counts_count by (apply Hkeys; by left).
  rewrite IH by (intros r' Hr'; apply Hkeys; by right). done.
Qed.

Lemma find_missing_coverage_perm enriched_df output_df path fs :
  frows (find_missing_coverage enriched_df output_df path fs).1
  ≡ₚ missing_row <$> distinct_rows enriched_df output_df.
Proof.
  rewrite find_missing_coverage_frows, sort_desc_perm, merge_left_freq_counts.
  rewrite <- list_fmap_compose. simpl.
  by rewrite list_fmap_id.
Qed.

(** X14: the rows [find_missing_coverage] returns are exactly about the
    catalog keys that no enriched record carries: the key of every row is a
    catalog key absent from the enriched keys, every such key has a row, and
    every row carries the same literal reason. *)
Theorem missing_rows_are_uncovered_keys (enriched_df output_df : Table)
    (path : string) (fs : gmap string Frame) :
  let out := find_missing_coverage enriched_df output_df path fs in
  (∀ r, r ∈ frows out.1 →
        m_key r ∈ keys output_df ∧ (m_key r ∉ keys enriched_df)
        ∧ reason r = "отсутствует")
  ∧ (∀ k, k ∈ keys output_df → k ∉ keys enriched_df →
          ∃ r, r ∈ frows out.1 ∧ m_key r = k).
Proof.
  intros out. subst out. unfold keys. split.
  - intros r Hr. rewrite find_missing_coverage_perm in Hr.
    apply list_elem_of_fmap in Hr as (d & -> & Hd).
    apply distinct_rows_key in Hd as [Hin Hnot].
    rewrite !elem_of_list_to_set. done.
  - intros k Hin Hnot. rewrite !elem_of_list_to_set in *.
    destruct (distinct_rows_cover enriched_df output_df k Hin Hnot) as (d & Hd & Hk).
    exists (missing_row d). split; [|done].
    rewrite find_missing_coverage_perm. by apply list_elem_of_fmap_2.
Qed.

Lemma insert_desc_sorted {A} (f : A → nat) x l :
  StronglySorted (λ a b, f b ≤ f a) l →
  StronglySorted (λ a b, f b ≤ f a) (insert_desc f x l).
Proof.
  induction 1 as [|y l Hs IH Hall]; simpl.
  - repeat constructor.
  - destruct (Nat.ltb_spec (f x) (f y)) as [Hlt|Hge].
    + constructor; [done|].
      rewrite insert_desc_perm. constructor; [lia|done].
    + constructor; [by constructor|].
      constructor; [done|].
      eapply Forall_impl; [exact Hall|]. simpl. intros z Hz. lia.
Qed.

Lemma sort_desc_sorted {A} (f : A → nat) l :
  StronglySorted (λ a b, f b ≤ f a) (sort_desc f l).
Proof.
  induction l as [|x l IH]; simpl; [constructor|].
  by apply insert_desc_sorted.
Qed.

Lemma StronglySorted_fmap_elem {A B} (f : A → B) (R1 : relation A)
    (R2 : relation B) (l : list A) :
  (∀ x y, x ∈ l → y ∈ l → R1 x y → R2 (f x) (f y)) →
  StronglySorted R1 l → StronglySorted R2 (f <$> l).
Proof.
  intros HR Hs. induction Hs as [|x l Hs IH Hall]; simpl; [constructor|].
  constructor.
  - apply IH. intros a b Ha Hb. apply HR; by right.
  - apply Forall_fmap, Forall_forall. intros y Hy. simpl.
    apply HR; [by left|by right|].
    rewrite Forall_forall in Hall. by apply Hall.
Qed.

(** X15: the rows [find_missing_coverage] returns are ordered by the
    number of catalog rows that carry their key, most frequent first. *)
Theorem missing_rows_by_frequency (enriched_df output_df : Table)
    (path : string) (fs : gmap string Frame) :
  StronglySorted
    (λ r1 r2, catalog_frequency output_df r2 ≤ catalog_frequency output_df r1)
    (frows (find_missing_coverage enriched_df output_df path fs).1).
Proof.
  rewrite find_missing_coverage_frows.
  apply (StronglySorted_fmap_elem fst (λ a b : MissingRow * nat, b.2 ≤ a.2));
    [|apply sort_desc_sorted].
  intros [r1 c1] [r2 c2] H1 H2 Hle. simpl in *.
  rewrite sort_desc_perm, merge_left_freq_counts in H1, H2.
  apply list_elem_of_fmap in H1 as (r1' & [= -> ->] & _).
  apply list_elem_of_fmap in H2 as (r2' & [= -> ->] & _).
  done.
Qed.

Lemma distinct_rows_NoDup_rows enriched_df output_df :
  NoDup (missing_row <$> distinct_rows enriched_df output_df).
Proof.
  apply NoDup_fmap_2_strong; [|apply NoDup_drop_duplicates].
  intros d1 d2 Hd1 Hd2 Heq.
  unfold distinct_rows in Hd1, Hd2.
  rewrite elem_of_drop_duplicates in Hd1, Hd2.
  apply list_elem_of_fmap in Hd1 as (t1 & -> & _).
  apply list_elem_of_fmap in Hd2 as (t2 & -> & _).
  unfold missing_row, select_available in *.
  destruct (has_marka output_df), (has_model output_df); simpl in *; congruence.
Qed.

(** X16: [find_missing_coverage] returns no row twice. *)
Theorem missing_rows_are_distinct (enriched_df output_df : Table)
    (path : string) (fs : gmap string Frame) :
  NoDup (frows (find_missing_coverage enriched_df output_df path fs).1).
Proof.
  rewrite find_missing_coverage_perm. apply distinct_rows_NoDup_rows.
Qed.

Lemma find_missing_coverage_writes enriched_df output_df path fs :
  let out := find_missing_coverage enriched_df output_df path fs in
  out.2 = (if decide (frows out.1 = []) then fs else <[path := out.1]> fs)
  ∧ ∀ path' fs',
      (find_missing_coverage enriched_df output_df path' fs').1 = out.1.
Proof.
  intros out. split.
  - destruct (find_missing_coverage_rows enriched_df output_df path fs)
      as [Hlen Hcols].
    fold out in Hlen, Hcols. simpl in Hlen, Hcols.
    pose proof (missing_keys_le_distinct enriched_df output_df) as Hle.
    simpl in Hle. rewrite <- fst_left_only, length_fmap in Hle.
    destruct (filter (λ m, m.2 = left_only) _) as [|m ms] eqn:Hm.
    + subst out. unfold find_missing_coverage. cbv zeta. rewrite Hm. done.
    + destruct Hcols as [_ ->]; [done|].
      rewrite decide_False; [done|].
      intros Hnil. rewrite Hnil in Hlen. simpl in *. lia.
  - intros path' fs'. subst out. unfold find_missing_coverage. cbv zeta.
    by destruct (length _ =? 0).
Qed.

(** X17: [find_missing_coverage] writes at most one file: a result with
    rows is written to the output path and nowhere else, an empty result
    is not written at all; and the frame it returns depends neither on the
    output path nor on the files already there. *)
Theorem missing_coverage_file_effects (enriched_df output_df : Table)
    (path : string) (fs : gmap string Frame) :
  let out := find_missing_coverage enriched_df output_df path fs in
  (frows out.1 = [] → out.2 = fs)
  ∧ (frows out.1 ≠ [] → out.2 !! path = Some out.1)
  ∧ (∀ path', path' ≠ path → out.2 !! path' = fs !! path')
  ∧ (∀ path' fs',
       (find_missing_coverage enriched_df output_df path' fs').1 = out.1).
Proof.
  intros out.
  destruct (find_missing_coverage_writes enriched_df output_df path fs)
    as [Hfs Hsame].
  fold out in Hfs, Hsame. repeat split.
  - intros Hnil. by rewrite Hfs, decide_True.
  - intros Hne. rewrite Hfs, decide_False by done. apply lookup_insert_eq.
  - intros path' Hp. rewrite Hfs. destruct (decide (frows out.1 = [])); [done|].
    by rewrite lookup_insert_ne.
  - exact Hsame.
Qed.

(** ** Further properties of [generate_coverage_report] *)

Lemma round_half_even_Z (q : Q) (z : Z) :
  (q == inject_Z z)%Q → round_half_even q = z.
Proof.
  intros Hq. unfold round_half_even.
  assert (Hf : Qfloor q = z) by (by rewrite Hq, Qfloor_Z).
  rewrite Hf.
  assert (Hr : (q - inject_Z z == 0)%Q) by (rewrite Hq; ring).
  destruct (Qcompare_spec (q - inject_Z z) (1 # 2)) as [He|Hl|Hg]; [|done|].
  - rewrite Hr in He. discriminate He.
  - rewrite Hr in Hg. discriminate Hg.
Qed.

Lemma round2_full (n : nat) :
  0 < n →
  round2 (inject_Z (Z.of_nat n) / inject_Z (Z.of_nat n) * 100)%Q = 100%Q.
Proof.
  intros Hn. unfold round2.
  rewrite (round_half_even_Z _ 10000); [done|].
  assert (Hnz : ¬ (inject_Z (Z.of_nat n) == 0)%Q).
  { unfold Qeq. simpl. lia. }
  change (inject_Z 10000) with 10000%Q. field. exact Hnz.
Qed.

(** X18: when every catalog key is among the enriched keys and the
    catalog has at least one key, the report gives as many covered keys as
    there are catalog keys, no missing key, and a coverage of 100. *)
Theorem full_coverage_report (enriched_df output_df : Table) :
  keys output_df ⊆ keys enriched_df →
  keys output_df ≠ ∅ →
  generate_coverage_report enriched_df output_df
  = Ok (mkReport (size (keys output_df)) (size (keys output_df)) 0 100%Q).
Proof.
  intros Hsub Hne. rewrite generate_coverage_report_spec. unfold coverage_spec.
  assert (Hint : keys output_df ∩ keys enriched_df = keys output_df).
  { apply set_eq. intros k. rewrite elem_of_intersection. split; [by intros [? _]|].
    intros Hk. split; [done|]. by apply Hsub. }
  rewrite Hint.
  assert (Hpos : 0 < size (keys output_df)).
  { destruct (size (keys output_df)) eqn:Hs; [|lia].
    apply (size_empty_inv (C:=gset key3)) in Hs.
    exfalso. apply Hne. by apply leibniz_equiv. }
  rewrite decide_False by lia. rewrite round2_full by done.
  f_equal. f_equal. lia.
Qed.

Lemma full_coverage_report_witness :
  let t := mkTable false false
             [mkRow (Some "a") None None None None;
              mkRow (Some "a") (Some "") (Some "") None None;
              mkRow (Some "b") (Some "c") None None None] in
  generate_coverage_report t t = Ok (mkReport 2 2 0 100%Q).
Proof.
  intros t.
  rewrite (full_coverage_report t t).
  - reflexivity.
  - intros k Hk. exact Hk.
  - intros Hempty.
    assert (Hin : ("a", "", "") ∈ keys t) by (vm_compute; reflexivity).
    rewrite Hempty in Hin. by apply not_elem_of_empty in Hin.
Defined.

(** X19: the coverage report depends only on which taxonomy keys occur in
    each table: two pairs of tables with the same keys - whatever the
    order of their rows, however often a row is repeated, and whether an
    empty group is NaN or the empty string - get the same report. *)
Theorem report_depends_on_keys_only (enriched_df output_df enriched_df'
    output_df' : Table) :
  (∀ k, k ∈ group_cols_of output_df ↔ k ∈ group_cols_of output_df') →
  (∀ k, k ∈ group_cols_of enriched_df ↔ k ∈ group_cols_of enriched_df') →
  generate_coverage_report enriched_df output_df
  = generate_coverage_report enriched_df' output_df'.
Proof.
  intros Ho He. rewrite !generate_coverage_report_spec.
  assert (keys output_df = keys output_df') as ->.
  { apply set_eq. intros k. unfold keys. by rewrite !elem_of_list_to_set. }
  assert (keys enriched_df = keys enriched_df') as ->.
  { apply set_eq. intros k. unfold keys. by rewrite !elem_of_list_to_set. }
  done.
Qed.

Lemma report_depends_on_keys_only_witness :
  let r1 := mkRow (Some "a") None (Some "c") None None in
  let r1' := mkRow (Some "a") (Some "") (Some "c") (Some "jcb") None in
  let r2 := mkRow (Some "d") (Some "e") None None None in
  generate_coverage_report (mkTable false false [r1]) (mkTable false false [r1; r2])
  = generate_coverage_report (mkTable true false [r1'; r1])
                             (mkTable true false [r2; r1'; r2]).
Proof.
  intros r1 r1' r2.
  apply report_depends_on_keys_only; intros k; unfold group_cols_of; cbn;
    rewrite !elem_of_cons, !elem_of_nil; tauto.
Defined.

End AnalyzerProperties.

(** * Properties of the orchestrator's third step *)

Section MainProperties.
Import Analyzer Main.

(** X20: once its two tables are read, the third step of the pipeline
    returns the frame of [find_missing_coverage] without raising and always
    leaves that frame in the missing-coverage file, also when the frame is
    empty, since the step saves it again; no other file is touched. *)
Theorem step3_saves_the_frame (enriched_df output_df : Table)
    (fs : gmap string Frame) :
  let run := step3_analyze_coverage enriched_df output_df fs in
  let missing_df :=
    (find_missing_coverage enriched_df output_df MISSING_COVERAGE_CSV fs).1 in
  run.2 = Ok missing_df
  ∧ run.1 !! MISSING_COVERAGE_CSV = Some missing_df
  ∧ ∀ path, path ≠ MISSING_COVERAGE_CSV → run.1 !! path = fs !! path.
Proof.
  intros run missing_df. subst run. unfold step3_analyze_coverage.
  rewrite generate_coverage_report_spec.
  destruct (find_missing_coverage_writes enriched_df output_df
              MISSING_COVERAGE_CSV fs) as [Hfs _].
  fold missing_df in Hfs. simpl in Hfs.
  destruct (find_missing_coverage enriched_df output_df MISSING_COVERAGE_CSV fs)
    as [df fs1] eqn:Hrun.
  simpl in *. subst missing_df. repeat split.
  - apply lookup_insert_eq.
  - intros path Hp. rewrite lookup_insert_ne by done. rewrite Hfs.
    destruct (decide (frows df = [])); [done|]. by rewrite lookup_insert_ne.
Qed.

End MainProperties.

(** * Properties of the extractor *)

Section ParserProperties.
Import Parser.

(** One turn of the loop either leaves the list as it is or appends one ad,
    and it appends exactly for a listing. *)
Lemma parse_item_cases ads item :
  (¬ listing item ∧ parse_item ads item = ads)
  ∨ (listing item ∧ ∃ u r p,
       parse_item ads item
       = ads ++ [mkAd (identifier item) (resolved_title item) u r p]).
Proof.
  unfold parse_item, listing. fold (identifier item). fold (resolved_title item).
  destruct (decide (identifier item = "")) as [Hid|Hid].
  - left. split; [|done]. by intros [? _].
  - destruct (decide (resolved_title item = "")) as [Ht|Ht].
    + left. split; [|done]. by intros [_ ?].
    + right. split; [done|]. by eexists _, _, _.
Qed.

Lemma foldl_parse_item_Forall (P : Ad → Prop) items ads :
  (∀ ad, ad_id ad ≠ "" → title ad ≠ "" → P ad) →
  Forall P ads → Forall P (foldl parse_item ads items).
Proof.
  intros HP. revert ads. induction items as [|item items IH]; intros ads Hads; [done|].
  simpl. apply IH.
  destruct (parse_item_cases ads item) as [[_ ->]|[[Hid Ht] (u & r & p & ->)]]; [done|].
  apply Forall_app. split; [done|]. constructor; [|constructor]. by apply HP.
Qed.

Lemma foldl_parse_item_length items ads :
  length (foldl parse_item ads items) = length ads + length (filter listing items).
Proof.
  revert ads. induction items as [|item items IH]; intros ads; simpl; [lia|].
  rewrite IH, filter_cons.
  destruct (parse_item_cases ads item) as [[Hn ->]|[Hl (u & r & p & ->)]].
  - by rewrite decide_False.
  - rewrite decide_True by done. rewrite length_app. simpl. lia.
Qed.

(** ** C9 *)

(** C9: for every document, every ad [parse_html_file] returns has a
    non-empty identifier and a non-empty title; an element whose identifier
    attribute is absent or empty adds no ad, and neither does an element
    whose resolved title text is empty; the elements visited all carry the
    attribute, and the number of ads is the number of elements of the
    document with both a non-empty identifier and a non-empty title. *)
Theorem extracted_ads_have_id_and_title (soup : node) :
  Forall (λ ad, ad_id ad ≠ "" ∧ title ad ≠ "") (parse_html_file soup)
  ∧ (∀ ads item,
       get item "data-item-id" = None ∨ get item "data-item-id" = Some "" →
       parse_item ads item = ads)
  ∧ (∀ ads item, resolved_title item = "" → parse_item ads item = ads)
  ∧ (∀ item, item ∈ find_all_with_attr soup "data-item-id" →
             is_Some (get item "data-item-id"))
  ∧ length (parse_html_file soup) = length (filter listing (descendants soup)).
Proof.
  repeat split.
  - unfold parse_html_file. apply foldl_parse_item_Forall; [by auto|constructor].
  - intros ads item Hid.
    destruct (parse_item_cases ads item) as [[_ ->]|[[Hne _] _]]; [done|].
    exfalso. apply Hne. unfold identifier. by destruct Hid as [-> | ->].
  - intros ads item Ht.
    destruct (parse_item_cases ads item) as [[_ ->]|[[_ Hne] _]]; done.
  - intros item Hin. unfold find_all_with_attr in Hin.
    by apply list_elem_of_filter in Hin as [? _].
  - unfold parse_html_file, find_all_with_attr.
    rewrite foldl_parse_item_length. simpl.
    rewrite list_filter_filter. f_equal. apply list_filter_iff.
    intros item. split; [by intros [? _]|]. intros Hl. split; [done|].
    destruct Hl as [Hid _]. unfold identifier in Hid.
    by destruct (get item "data-item-id").
Qed.

(** ** Further properties of the extractor *)

Lemma foldl_parse_item_ids items ads :
  (λ ad, (ad_id ad, title ad)) <$> foldl parse_item ads items
  = ((λ ad, (ad_id ad, title ad)) <$> ads)
    ++ ((λ item, (identifier item, resolved_title item)) <$> filter listing items).
Proof.
  revert ads. induction items as [|item items IH]; intros ads; simpl.
  - by rewrite app_nil_r.
  - rewrite IH, filter_cons.
    destruct (parse_item_cases ads item) as [[Hn ->]|[Hl (u & r & p & ->)]].
    + by rewrite decide_False.
    + rewrite decide_True by done. rewrite fmap_app, <- app_assoc. done.
Qed.

Lemma filter_listing_with_attr (l : list node) :
  filter listing (filter (λ d, is_Some (get d "data-item-id")) l) = filter listing l.
Proof.
  rewrite list_filter_filter. apply list_filter_iff.
  intros item. split; [by intros [? _]|]. intros Hl. split; [done|].
  destruct Hl as [Hid _]. unfold identifier in Hid.
  by destruct (get item "data-item-id").
Qed.

(** X10: the ads of a document come in document order, one for each
    element that has a non-empty identifier and a non-empty resolved title,
    with that identifier and that title. *)
Theorem ads_in_document_order (soup : node) :
  (λ ad, (ad_id ad, title ad)) <$> parse_html_file soup
  = (λ item, (identifier item, resolved_title item))
      <$> filter listing (descendants soup).
Proof.
  unfold parse_html_file, find_all_with_attr.
  rewrite foldl_parse_item_ids. simpl.
  by rewrite filter_listing_with_attr.
Qed.

Lemma files_loop_spec file_paths all_ads :
  files_loop all_ads file_paths
  = if forallb decodable file_paths
    then Ok (all_ads ++ concat (parse_html_file <$> readable file_paths))
    else Raise ValueError.
Proof.
  revert all_ads.
  induction file_paths as [|[soup| |] rest IH]; intros all_ads; simpl.
  - by rewrite app_nil_r.
  - rewrite IH. destruct (forallb decodable rest); [|done].
    unfold readable. simpl. by rewrite <- app_assoc.
  - by rewrite IH.
  - done.
Qed.

Lemma parse_html_file_nonempty soup :
  Forall (λ ad, ad_id ad ≠ "" ∧ title ad ≠ "") (parse_html_file soup).
Proof.
  unfold parse_html_file. apply foldl_parse_item_Forall; [by auto|constructor].
Qed.

(** X11: when every file there is decodes as UTF-8, [parse_html_files]
    returns the ads of the documents that could be read, document after
    document in the order of the list, and a path that raises [OSError]
    contributes nothing, wherever it stands; a file that is not valid
    UTF-8 instead makes the whole call raise, whatever was collected
    before; [k] copies of a document with [m] ads give [k * m] ads; and
    every ad returned has a non-empty identifier and a non-empty title. *)
Theorem parse_html_files_concatenates (file_paths file_paths' : list file) :
  (forallb decodable file_paths = true →
   parse_html_files file_paths
   = Ok (concat (parse_html_file <$> readable file_paths)))
  ∧ (forallb decodable file_paths = false →
     parse_html_files file_paths = Raise ValueError)
  ∧ parse_html_files (file_paths ++ Unreadable :: file_paths')
    = parse_html_files (file_paths ++ file_paths')
  ∧ (∀ ads ads',
       parse_html_files file_paths = Ok ads →
       parse_html_files file_paths' = Ok ads' →
       parse_html_files (file_paths ++ file_paths') = Ok (ads ++ ads'))
  ∧ (∀ k soup, ∃ ads,
       parse_html_files (replicate k (Document soup)) = Ok ads
       ∧ length ads = k * length (parse_html_file soup))
  ∧ (∀ ads, parse_html_files file_paths = Ok ads →
            Forall (λ ad, ad_id ad ≠ "" ∧ title ad ≠ "") ads).
Proof.
  unfold parse_html_files. repeat split.
  - intros Hd. by rewrite files_loop_spec, Hd.
  - intros Hd. by rewrite files_loop_spec, Hd.
  - rewrite !files_loop_spec, !forallb_app. simpl.
    unfold readable. rewrite !omap_app. done.
  - intros ads ads'. rewrite !files_loop_spec, forallb_app.
    destruct (forallb decodable file_paths); [|done].
    destruct (forallb decodable file_paths'); [|done].
    simpl. intros [= <-] [= <-].
    unfold readable. by rewrite omap_app, fmap_app, concat_app.
  - intros k soup. rewrite files_loop_spec.
    replace (forallb decodable (replicate k (Document soup))) with true
      by (induction k as [|k IH]; [done|exact IH]).
    eexists. split; [done|]. simpl.
    induction k as [|k IH]; [done|].
    change (length (parse_html_file soup
                    ++ concat (parse_html_file
                                 <$> readable (replicate k (Document soup))))
            = S k * length (parse_html_file soup)).
    rewrite length_app, IH. lia.
  - intros ads. rewrite files_loop_spec.
    destruct (forallb decodable file_paths); [|done].
    simpl. intros [= <-]. clear.
    induction file_paths as [|[soup| |] rest IH]; simpl;
      first [ done
            | by constructor
            | apply Forall_app; split; [apply parse_html_file_nonempty|done] ].
Qed.

Lemma parse_html_files_concatenates_witness :
  let soup :=
    Tag "html" []
      [Tag "div" [("data-item-id", "1")]
         [Tag "a" [("data-marker", "item-title")] [Text " Ad "]]] in
  (∃ ads, parse_html_files [Document soup; Unreadable; Document soup] = Ok ads
          ∧ length ads = 2)
  ∧ parse_html_files [Document soup; Undecodable; Document soup] = Raise ValueError.
Proof.
  intros soup. split.
  - destruct (parse_html_files_concatenates
                [Document soup; Unreadable; Document soup] []) as (H & _).
    eexists. split; [apply H; reflexivity|reflexivity].
  - destruct (parse_html_files_concatenates
                [Document soup; Undecodable; Document soup] []) as (_ & H & _).
    apply H. reflexivity.
Defined.

Lemma to_dict_title ad : to_dict ad !! "title" = Some (VStr (title ad)).
Proof.
  unfold to_dict. rewrite lookup_insert_ne by done. by rewrite lookup_insert_eq.
Qed.

Lemma get_titles_to_dict (ads : list Ad) :
  Enricher.get_titles (to_dict <$> ads) = Ok ((λ ad, VStr (title ad)) <$> ads).
Proof.
  induction ads as [|ad ads IH]; [done|].
  rewrite !fmap_cons.
  change (Enricher.get_titles (to_dict ad :: (to_dict <$> ads)))
    with (match to_dict ad !! "title" with
          | None => Raise KeyError
          | Some t =>
            match Enricher.get_titles (to_dict <$> ads) with
            | Ok ts => Ok (t :: ts)
            | Raise e => Raise e
            end
          end).
  by rewrite to_dict_title, IH.
Qed.

(** ** Trimmed text *)

Lemma starts_clean_list s : starts_clean s ↔ clean_head (String.list_ascii_of_string s).
Proof. by destruct s. Qed.

Lemma list_ascii_rev_app s1 s2 :
  String.list_ascii_of_string (String.rev_app s1 s2)
  = reverse (String.list_ascii_of_string s1) ++ String.list_ascii_of_string s2.
Proof.
  revert s2. induction s1 as [|a s1 IH]; intros s2; simpl; [done|].
  rewrite IH, reverse_cons, <- app_assoc. done.
Qed.

Lemma list_ascii_rev s :
  String.list_ascii_of_string (String.rev s) = reverse (String.list_ascii_of_string s).
Proof. unfold String.rev. by rewrite list_ascii_rev_app, app_nil_r. Qed.

Lemma list_ascii_app s1 s2 :
  String.list_ascii_of_string (String.app s1 s2)
  = String.list_ascii_of_string s1 ++ String.list_ascii_of_string s2.
Proof. induction s1 as [|a s1 IH]; simpl; [done|]. by rewrite IH. Qed.

Lemma list_ascii_nil s : String.list_ascii_of_string s = [] → s = "".
Proof. by destruct s. Qed.

Lemma clean_head_app (x y : list Ascii.ascii) :
  x ≠ [] → clean_head (x ++ y) ↔ clean_head x.
Proof. by destruct x. Qed.

Lemma lstrip_clean s : starts_clean (lstrip s).
Proof.
  induction s as [|a s IH]; simpl; [done|].
  destruct (is_space a) eqn:Ha; [done|]. simpl. done.
Qed.

Lemma lstrip_suffix s :
  ∃ pre, String.list_ascii_of_string s = pre ++ String.list_ascii_of_string (lstrip s).
Proof.
  induction s as [|a s [pre IH]]; simpl; [by exists []|].
  destruct (is_space a).
  - exists (a :: pre). simpl. by rewrite IH.
  - by exists [].
Qed.

(** Stripping at the front keeps a clean end. *)
Lemma lstrip_keeps_end s :
  starts_clean (String.rev s) → starts_clean (String.rev (lstrip s)).
Proof.
  rewrite !starts_clean_list, !list_ascii_rev.
  destruct (lstrip_suffix s) as [pre Hs]. rewrite Hs, reverse_app.
  destruct (String.list_ascii_of_string (lstrip s)) as [|a l] eqn:Hl; [done|].
  apply clean_head_app. rewrite reverse_cons. by destruct (reverse l).
Qed.

Lemma string_rev_involutive s : String.rev (String.rev s) = s.
Proof.
  rewrite <- (String.string_of_list_ascii_of_string (String.rev (String.rev s))).
  rewrite !list_ascii_rev, reverse_involutive.
  apply String.string_of_list_ascii_of_string.
Qed.

Lemma strip_trimmed s : trimmed (strip s).
Proof.
  unfold trimmed, strip. split.
  - apply lstrip_keeps_end. rewrite string_rev_involutive. apply lstrip_clean.
  - rewrite string_rev_involutive. apply lstrip_clean.
Qed.

Lemma trimmed_join (l : list string) :
  Forall (λ s, trimmed s ∧ s ≠ "") l → trimmed (foldr String.app "" l).
Proof.
  induction 1 as [|x l [[Hx1 Hx2] Hne] _ [IH1 IH2]]; [done|].
  simpl. unfold trimmed.
  rewrite !starts_clean_list, list_ascii_rev, list_ascii_app, reverse_app in *.
  assert (Hxl : String.list_ascii_of_string x ≠ []).
  { intros Hnil. by apply Hne, list_ascii_nil. }
  split.
  - by apply clean_head_app.
  - destruct (String.list_ascii_of_string (foldr String.app "" l)) as [|a r] eqn:Hr.
    + by rewrite reverse_nil.
    + apply clean_head_app; [|done].
      rewrite reverse_cons. by destruct (reverse r).
Qed.

Lemma get_text_trimmed n : trimmed (get_text n).
Proof.
  unfold get_text. apply trimmed_join, Forall_forall.
  intros s [Hne Hs]%list_elem_of_filter. split; [|done].
  apply list_elem_of_fmap in Hs as (s0 & -> & _). apply strip_trimmed.
Qed.

Lemma from_option_get_text_trimmed (e : option node) :
  trimmed (from_option get_text "" e).
Proof. destruct e; [apply get_text_trimmed|done]. Qed.

Lemma parse_item_trimmed ads item :
  Forall (λ ad, trimmed (title ad) ∧ trimmed (region ad) ∧ trimmed (price ad)) ads →
  Forall (λ ad, trimmed (title ad) ∧ trimmed (region ad) ∧ trimmed (price ad))
         (parse_item ads item).
Proof.
  intros Hads. unfold parse_item.
  destruct (decide (default "" (get item "data-item-id") = "")); [done|].
  destruct (decide (from_option get_text ""
                      (find_by_attr item "data-marker" "item-title") = ""));
    [done|].
  apply Forall_app. split; [done|]. constructor; [|constructor]. simpl.
  repeat split; apply from_option_get_text_trimmed.
Qed.

(** X13: the title, the region and the price of every ad extracted from a
    document neither begin nor end with (ASCII) white space. *)
Theorem extracted_text_is_trimmed (soup : node) :
  Forall (λ ad, trimmed (title ad) ∧ trimmed (region ad) ∧ trimmed (price ad))
         (parse_html_file soup).
Proof.
  unfold parse_html_file.
  generalize (find_all_with_attr soup "data-item-id"). intros items.
  assert (H : ∀ ads,
            Forall (λ ad, trimmed (title ad) ∧ trimmed (region ad)
                          ∧ trimmed (price ad)) ads →
            Forall (λ ad, trimmed (title ad) ∧ trimmed (region ad)
                          ∧ trimmed (price ad)) (foldl parse_item ads items)).
  { induction items as [|item items IH]; intros ads Hads; [done|].
    simpl. by apply IH, parse_item_trimmed. }
  apply H. constructor.
Qed.

End ParserProperties.

(** * From the extractor to the client *)

Section PipelineProperties.
Import Enricher Parser.

Lemma to_dict_lookups ad :
  to_dict ad !! "ad_id" = Some (VStr (ad_id ad))
  ∧ to_dict ad !! "title" = Some (VStr (title ad))
  ∧ to_dict ad !! "url" = Some (VStr (url ad))
  ∧ to_dict ad !! "region" = Some (VStr (region ad))
  ∧ to_dict ad !! "price" = Some (VStr (price ad)).
Proof.
  unfold to_dict. repeat split;
    repeat (rewrite lookup_insert_ne by done); by rewrite lookup_insert_eq.
Qed.

Lemma batch_loop_no_KeyError srv ads b delay indices w results :
  Forall has_title ads →
  (batch_loop srv ads b delay indices w results).2 ≠ Raise KeyError.
Proof.
  intros Hads. revert w results.
  induction indices as [|i rest IH]; intros w results; simpl; [done|].
  destruct (get_titles_has_title (slice ads i b)) as [titles Ht].
  { unfold slice. by apply Forall_take, Forall_drop. }
  rewrite Ht.
  pose proof (enrich_batch_raises_auth_only srv titles 3 w) as Hauth.
  destruct (enrich_batch srv titles 3 w) as [w1 [enriched|e]]; simpl in *.
  - destruct (merge_loop _ _ results) as [results1|e] eqn:Hm.
    + apply IH.
    + simpl. by rewrite (merge_loop_raises _ _ _ _ Hm).
  - by rewrite (Hauth e eq_refl).
Qed.

(** X12: the dictionary of an ad keeps its five fields, so that two ads
    with the same dictionary are the same ad; the titles the client reads
    from the dictionaries of a list of ads are the titles of the ads, in
    order; and [enrich_all_ads] run on these dictionaries never raises
    [KeyError]. *)
Theorem ads_feed_the_client (srv : service) (ads : list Ad) (batch_size : Z)
    (delay : Q) :
  (∀ a a', to_dict a = to_dict a' → a = a')
  ∧ get_titles (to_dict <$> ads) = Ok ((λ ad, VStr (title ad)) <$> ads)
  ∧ (enrich_all_ads srv (to_dict <$> ads) batch_size delay).2 ≠ Raise KeyError.
Proof.
  split; [|split].
  - intros a a' Heq.
    destruct (to_dict_lookups a) as (H1 & H2 & H3 & H4 & H5).
    destruct (to_dict_lookups a') as (H1' & H2' & H3' & H4' & H5').
    rewrite Heq in H1, H2, H3, H4, H5.
    destruct a, a'. simpl in *. congruence.
  - apply get_titles_to_dict.
  - unfold enrich_all_ads.
    destruct (batch_size =? 0)%Z; [done|].
    pose proof (batch_loop_no_KeyError srv (to_dict <$> ads) (Z.to_nat batch_size)
      delay
      (if (batch_size <? 0)%Z then []
       else py_range (length (to_dict <$> ads)) (Z.to_nat batch_size))
      init_world []) as Hno.
    destruct (batch_loop _ _ _ _ _ _ _) as [w1 [res|e]]; [done|].
    simpl in *. intros [= ->]. apply Hno; [|done].
    apply Forall_fmap, Forall_forall. intros ad _.
    exists (VStr (title ad)). apply to_dict_title.
Qed.

End PipelineProperties.
